(** * Chapel runtime: argument handling (runtime/src/arg.c) and the
      structured-parallelism core described by the specification.

    Part I   ([CString], [Arg]) is a shallow embedding of
             [runtime/src/arg.c]: the process-wide globals become one
             record, every C function becomes a computation in a small
             state-and-halt monad, and the functions that live in other
             translation units are collected in a record of externals.
    Part II  ([Runtime]) models the Structured Task Group, the Error
             Aggregator and the Synchronization Cell, whose
             implementation is not part of the sources at hand, and the
             test program [test/errhandling/parallel/begin-throws.chpl]
             that runs on top of them.
    Part III ([BlockLU]) embeds the iterator [blockedA] of the block LU
             program.
    Part IV  ([Paratest]) embeds the queue arithmetic of
             [util/test/paratest.chapcs]. *)

From Stdlib Require Import ZArith String Ascii List Lia Permutation.
From stdpp Require Import base strings gmap list.

Open Scope string_scope.

(* ===================================================================== *)
(** ** C strings *)
(* ===================================================================== *)

Module CString.

(** A [string] stands for the bytes of a character array up to (and
    without) its final terminator.  While [defineEnvVar] runs, the array
    temporarily holds a NUL in the middle, so every C library function
    below reads only up to the first NUL. *)

Definition NUL : ascii := Ascii.zero.
Definition dquote : string := String (ascii_of_nat 34) "".
Definition newline : string := String (ascii_of_nat 10) "".

(** The C string that starts at the beginning of the array. *)
Fixpoint cstr (s : string) : string :=
  match s with
  | "" => ""
  | String c s' => if Ascii.eqb c NUL then "" else String c (cstr s')
  end.

(** Pointer arithmetic [s + n]. *)
Fixpoint advance (n : nat) (s : string) : string :=
  match n, s with
  | O, _ => s
  | S n', String _ s' => advance n' s'
  | S _, "" => ""
  end.

(** [s[n]]; the byte after the last one is the terminator. *)
Definition char_at (s : string) (n : nat) : ascii :=
  default NUL (String.get n s).

(** [s[n] = c]. *)
Fixpoint poke (s : string) (n : nat) (c : ascii) : string :=
  match s, n with
  | "", _ => ""
  | String _ s', O => String c s'
  | String a s', S n' => String a (poke s' n' c)
  end.

(** [strchr(s, c)] for [c <> NUL]: offset of the first [c] before the
    terminator. *)
Fixpoint strchr (s : string) (c : ascii) : option nat :=
  match s with
  | "" => None
  | String a s' =>
      if Ascii.eqb a c then Some O
      else if Ascii.eqb a NUL then None
      else S <$> strchr s' c
  end.

Definition strlen (s : string) : nat := String.length (cstr s).

(** [strcmp(a, b) == 0]. *)
Definition streq (a b : string) : bool := String.eqb (cstr a) (cstr b).

(** [chpl_glom_strings(3, a, b, c)]: the concatenation of its arguments. *)
Definition chpl_glom_strings3 (a b c : string) : string :=
  cstr a +:+ cstr b +:+ cstr c.

(** The [%-*s] conversion of [fprintf]: left-justified in a field of
    [w] characters. *)
Definition pad_right (w : nat) (s : string) : string :=
  s +:+ String.concat "" (repeat " " (w - String.length s)).

End CString.

(* ===================================================================== *)
(** ** runtime/src/arg.c *)
(* ===================================================================== *)

Module Arg.
Import CString.

Section WithWorld.

(** State of the translation units that [arg.c] calls into (the config
    table, the communication layer, ...); [arg.c] never looks inside. *)
Context {World : Type}.

(** The globals [arg.c] defines or touches, the process environment, and
    what has been written to [stdout]. *)
Record globals : Type := mkGlobals {
  gdbFlag : Z;                      (* static int gdbFlag = 0;          *)
  blockreport : Z;                  (* int32_t blockreport = 0;         *)
  taskreport : Z;                   (* int32_t taskreport = 0;          *)
  verbosity : Z;                    (* defined by the generated code    *)
  _argNumLocales : Z;               (* static int32_t _argNumLocales=0; *)
  chpl_gen_main_arg : list string;  (* argv of the Chapel main; argc is
                                       its length                       *)
  environ : gmap string string;     (* the process environment          *)
  errno : Z;
  heap_exhausted : bool;            (* whether libc's next allocation
                                       fails                            *)
  errmsg : string;                  (* static char errmsg[1000] of
                                       defineEnvVar                     *)
  stdout : list string;             (* one entry per fprintf            *)
  world : World
}.

Definition set_gdbFlag (v : Z) (g : globals) : globals :=
  mkGlobals v (blockreport g) (taskreport g) (verbosity g) (_argNumLocales g)
    (chpl_gen_main_arg g) (environ g) (errno g) (heap_exhausted g) (errmsg g)
    (stdout g) (world g).
Definition set_blockreport (v : Z) (g : globals) : globals :=
  mkGlobals (gdbFlag g) v (taskreport g) (verbosity g) (_argNumLocales g)
    (chpl_gen_main_arg g) (environ g) (errno g) (heap_exhausted g) (errmsg g)
    (stdout g) (world g).
Definition set_taskreport (v : Z) (g : globals) : globals :=
  mkGlobals (gdbFlag g) (blockreport g) v (verbosity g) (_argNumLocales g)
    (chpl_gen_main_arg g) (environ g) (errno g) (heap_exhausted g) (errmsg g)
    (stdout g) (world g).
Definition set_verbosity (v : Z) (g : globals) : globals :=
  mkGlobals (gdbFlag g) (blockreport g) (taskreport g) v (_argNumLocales g)
    (chpl_gen_main_arg g) (environ g) (errno g) (heap_exhausted g) (errmsg g)
    (stdout g) (world g).
Definition set__argNumLocales (v : Z) (g : globals) : globals :=
  mkGlobals (gdbFlag g) (blockreport g) (taskreport g) (verbosity g) v
    (chpl_gen_main_arg g) (environ g) (errno g) (heap_exhausted g) (errmsg g)
    (stdout g) (world g).
Definition set_chpl_gen_main_arg (v : list string) (g : globals) : globals :=
  mkGlobals (gdbFlag g) (blockreport g) (taskreport g) (verbosity g)
    (_argNumLocales g) v (environ g) (errno g) (heap_exhausted g) (errmsg g)
    (stdout g) (world g).
Definition set_environ (v : gmap string string) (g : globals) : globals :=
  mkGlobals (gdbFlag g) (blockreport g) (taskreport g) (verbosity g)
    (_argNumLocales g) (chpl_gen_main_arg g) v (errno g) (heap_exhausted g)
    (errmsg g) (stdout g) (world g).
Definition set_errno (v : Z) (g : globals) : globals :=
  mkGlobals (gdbFlag g) (blockreport g) (taskreport g) (verbosity g)
    (_argNumLocales g) (chpl_gen_main_arg g) (environ g) v (heap_exhausted g)
    (errmsg g) (stdout g) (world g).
Definition set_errmsg (v : string) (g : globals) : globals :=
  mkGlobals (gdbFlag g) (blockreport g) (taskreport g) (verbosity g)
    (_argNumLocales g) (chpl_gen_main_arg g) (environ g) (errno g)
    (heap_exhausted g) v (stdout g) (world g).
Definition set_stdout (v : list string) (g : globals) : globals :=
  mkGlobals (gdbFlag g) (blockreport g) (taskreport g) (verbosity g)
    (_argNumLocales g) (chpl_gen_main_arg g) (environ g) (errno g)
    (heap_exhausted g) (errmsg g) v (world g).

(** The values the initialisers of [arg.c] give its own globals; the rest
    is whatever the process starts with. *)
Definition initial_globals (verb : Z) (main_arg : list string)
    (env : gmap string string) (oom : bool) (w : World) : globals :=
  mkGlobals 0 0 0 verb 0 main_arg env 0 oom "" [] w.

(** *** The monad: state, plus the two ways the process can stop *)

Inductive halt : Type :=
  | chpl_error_halt (message : string) (lineno : Z) (filename : option string)
  | chpl_exit_halt (status : Z).

Inductive result (A : Type) : Type :=
  | Done (a : A) (g : globals)
  | Halted (h : halt) (g : globals).
Arguments Done {A} a g.
Arguments Halted {A} h g.

Definition M (A : Type) : Type := globals -> result A.

Definition ret {A} (a : A) : M A := fun g => Done a g.
Definition bind {A B} (m : M A) (k : A -> M B) : M B :=
  fun g => match m g with
           | Done a g' => k a g'
           | Halted h g' => Halted h g'
           end.
Definition modify (f : globals -> globals) : M unit :=
  fun g => Done tt (f g).
Definition gets {A} (f : globals -> A) : M A := fun g => Done (f g) g.
Definition when (b : bool) (m : M unit) : M unit :=
  if b then m else ret tt.

Notation "x <- m ;; k" := (bind m (fun x => k))
  (at level 100, m at next level, right associativity).
Notation "m ;; k" := (bind m (fun _ => k))
  (at level 100, right associativity).

Definition state_of {A} (r : result A) : globals :=
  match r with Done _ g => g | Halted _ g => g end.

(** [chpl_error] (error.c) reports the message and terminates the
    process; [chpl_exit_any] (chplexit.c) terminates it with a status.
    Neither returns. *)
Definition chpl_error {A} (message : string) (lineno : Z)
    (filename : option string) : M A :=
  fun g => Halted (chpl_error_halt (cstr message) lineno filename) g.
Definition chpl_exit_any {A} (status : Z) : M A :=
  fun g => Halted (chpl_exit_halt status) g.

Definition fprintf_stdout (s : string) : M unit :=
  modify (fun g => set_stdout (stdout g ++ [s]) g).

(** *** libc: setenv(3) *)

Definition EINVAL : Z := 22.
Definition ENOMEM : Z := 12.

(** POSIX [setenv(name, value, overwrite)]: fails with [EINVAL] when
    [name] is empty or contains ['='], with [ENOMEM] when the new entry
    cannot be allocated; with [overwrite = 0] an existing variable is
    left alone and the call succeeds. *)
Definition setenv (name value : string) (overwrite : Z) : M Z :=
  fun g =>
    if String.eqb name "" || bool_decide (is_Some (strchr name "="))
    then Done (-1)%Z (set_errno EINVAL g)
    else if bool_decide (is_Some (environ g !! name)) && (overwrite =? 0)%Z
    then Done 0%Z g
    else if heap_exhausted g
    then Done (-1)%Z (set_errno ENOMEM g)
    else Done 0%Z (set_environ (<[name := value]> (environ g)) g).

(** *** What the other translation units provide *)

Record externals : Type := {
  (** [const int mainHasArgs], emitted by the compiler *)
  mainHasArgs : bool;
  (** chplcast.c: value, [*invalid], [*invalidCh] *)
  c_string_to_int32_t_precise : string -> Z * bool * ascii;
  (** libc *)
  strerror : Z -> string;
  (** config.c; the [int] they return is the number of further
      arguments they consumed.  Arguments: [argv], [argNum], [lineno],
      [filename] ([*argc] is the length of [argv]). *)
  handlePossibleConfigVar : list string -> nat -> Z -> option string -> M nat;
  handleNonstandardArg : list string -> nat -> Z -> option string -> M nat;
  parseConfigFile : string -> Z -> option string -> M unit;
  (** [initSetValue(varName, value, moduleName, lineno, filename)] *)
  initSetValue : string -> string -> string -> Z -> option string -> M unit;
  printAdditionalHelp : M unit;
  printConfigVarTable : M unit;
  chpl_program_about : M unit
}.

Variable X : externals.

(** *** arg.c, top to bottom *)

Definition _runInGDB : M Z := gets gdbFlag.

Definition printHeaders (thisType : ascii) (lastType : ascii) : M ascii :=
  if negb (Ascii.eqb thisType lastType) then
    fprintf_stdout newline ;;
    (if Ascii.eqb thisType "c" then
       fprintf_stdout ("CONFIG VAR FLAGS:" +:+ newline) ;;
       fprintf_stdout ("=================" +:+ newline)
     else if Ascii.eqb thisType "g" then
       fprintf_stdout ("FLAGS:" +:+ newline) ;;
       fprintf_stdout ("======" +:+ newline)
     else ret tt) ;;
    ret thisType
  else ret lastType.

Record flagType : Type := mkFlag {
  flag : string;
  description : string;
  headerType : ascii
}.

(** The table of [printHelpTable], without its terminating sentinel. *)
Definition flagList : list flagType := [
  mkFlag "-h, --help" "print this message" "g";
  mkFlag "-a, --about" "print compilation information" "g";
  mkFlag "-nl <n>" "run program using n locales" "g";
  mkFlag "" "(equivalent to setting the numLocales config const)" "g";
  mkFlag "-q, --quiet" "run program in quiet mode" "g";
  mkFlag "-v, --verbose" "run program in verbose mode" "g";
  mkFlag "-b, --blockreport" "report location of blocked threads on SIGINT" "g";
  mkFlag "-t, --taskreport"
         "report list of pending and executing tasks on SIGINT" "g";
  mkFlag "--gdb" "run program in gdb" "g";
  mkFlag "-E<name=value>" "set the value of an environment variable" "g";
  mkFlag "-s, --<cfgVar>=<val>" "set the value of a config var" "c";
  mkFlag "-f<filename>" "read in a file of config var assignments" "c"
].

Definition longest_flag (l : list flagType) : nat :=
  foldl (fun longestFlag f =>
           let thisFlag := strlen (flag f) in
           if (longestFlag <? thisFlag)%nat then thisFlag else longestFlag)
        O l.

Fixpoint print_flags (longestFlag : nat) (l : list flagType)
    (lastHeaderType : ascii) : M unit :=
  match l with
  | [] => ret tt
  | f :: l' =>
      lastHeaderType' <- printHeaders (headerType f) lastHeaderType ;;
      (if Ascii.eqb (char_at (flag f) 0) NUL then
         fprintf_stdout ("  " +:+ pad_right longestFlag (flag f) +:+ "    "
                         +:+ description f +:+ newline)
       else
         fprintf_stdout ("  " +:+ pad_right longestFlag (flag f) +:+ "  : "
                         +:+ description f +:+ newline)) ;;
      print_flags longestFlag l' lastHeaderType'
  end.

Definition printHelpTable : M unit :=
  printAdditionalHelp X ;;
  print_flags (longest_flag flagList) flagList NUL ;;
  fprintf_stdout newline.

Definition parseNumLocales (numPtr : string) (lineno : Z)
    (filename : option string) : M unit :=
  let '(val, invalid, invalidCh) := c_string_to_int32_t_precise X numPtr in
  modify (set__argNumLocales val) ;;
  when invalid
    (chpl_error (chpl_glom_strings3 dquote numPtr
                   (dquote +:+ " is not a valid number of locales"))
                lineno filename) ;;
  n <- gets _argNumLocales ;;
  when (n <? 1)%Z
    (chpl_error "Number of locales must be greater than 0" lineno filename).

Definition getArgNumLocales : M Z :=
  n <- gets _argNumLocales ;;
  let retval := 0%Z in
  let retval := if negb (n =? 0)%Z then n else retval in
  ret retval.

Definition defineEnvVar_syntax_error : string :=
  "-E argument must be of the form name=value".

(** [defineEnvVar(buf + off, lineno, filename)].  The array [buf] is
    written to, so the computation returns it. *)
Definition defineEnvVar (buf : string) (off : nat) (lineno : Z)
    (filename : option string) : M string :=
  let estr := advance off buf in
  match strchr estr "=" with
  | None => chpl_error defineEnvVar_syntax_error lineno filename
  | Some k =>
      let estr_val := (off + k)%nat in
      let buf := poke buf estr_val NUL in
      rc <- setenv (cstr (advance off buf)) (cstr (advance (S estr_val) buf)) 0 ;;
      when (negb (rc =? 0)%Z)
        (e <- gets errno ;;
         modify (set_errmsg
           (String.substring 0 999
              ("Cannot setenv(" +:+ dquote +:+ cstr (advance off buf) +:+ dquote
               +:+ "): " +:+ strerror X e)))) ;;
      let buf := poke buf estr_val "=" in
      ret buf
  end.

Definition chpl_specify_locales_error : M Z :=
  chpl_error (A := unit)
    "Specify number of locales via -nl <#> or --numLocales=<#>" 0 None ;;
  ret 0%Z.

(** The locals of [parseArgs] that live across loop iterations.  [argv]
    is among them because [defineEnvVar] writes into its strings. *)
Record locals : Type := mkLocals {
  i : nat;
  printHelp : bool;
  printAbout : bool;
  stop_parsing : bool;
  argv : list string
}.

Definition set_i (v : nat) (lv : locals) : locals :=
  mkLocals v (printHelp lv) (printAbout lv) (stop_parsing lv) (argv lv).
Definition set_printHelp (v : bool) (lv : locals) : locals :=
  mkLocals (i lv) v (printAbout lv) (stop_parsing lv) (argv lv).
Definition set_printAbout (v : bool) (lv : locals) : locals :=
  mkLocals (i lv) (printHelp lv) v (stop_parsing lv) (argv lv).
Definition set_stop_parsing (v : bool) (lv : locals) : locals :=
  mkLocals (i lv) (printHelp lv) (printAbout lv) v (argv lv).
Definition set_argv (v : list string) (lv : locals) : locals :=
  mkLocals (i lv) (printHelp lv) (printAbout lv) (stop_parsing lv) v.

(** [chpl_gen_main_arg.argv[chpl_gen_main_arg.argc] = a;
     chpl_gen_main_arg.argc++;] *)
Definition push_main_arg (a : string) : M unit :=
  modify (fun g => set_chpl_gen_main_arg (chpl_gen_main_arg g ++ [a]) g).

Definition not_a_valid_argument (currentArg : string) : string :=
  chpl_glom_strings3 dquote currentArg (dquote +:+ " is not a valid argument").

(** [i += handleNonstandardArg(argc, argv, i, lineno, filename);] *)
Definition nonstandard (lv : locals) (lineno : Z) (filename : option string)
    : M locals :=
  n <- handleNonstandardArg X (argv lv) (i lv) lineno filename ;;
  ret (set_i (i lv + n)%nat lv).

(** [i += handlePossibleConfigVar(argc, argv, i, lineno, filename);] *)
Definition possible_config_var (lv : locals) (lineno : Z)
    (filename : option string) : M locals :=
  n <- handlePossibleConfigVar X (argv lv) (i lv) lineno filename ;;
  ret (set_i (i lv + n)%nat lv).

(** The long option at [currentArg + 2]. *)
Definition parseLongFlag (lv : locals) (currentArg : string)
    (argLength : nat) (lineno : Z) (filename : option string) : M locals :=
  let flag := advance 2 currentArg in
  if streq flag "gdb" then
    modify (set_gdbFlag (Z.of_nat (i lv))) ;; ret lv
  else if streq flag "help" then
    push_main_arg "--help" ;; ret (set_printHelp true lv)
  else if streq flag "about" then
    ret (set_printAbout true lv)
  else if streq flag "verbose" then
    modify (set_verbosity 2) ;; ret lv
  else if streq flag "blockreport" then
    modify (set_blockreport 1) ;; ret lv
  else if streq flag "taskreport" then
    modify (set_taskreport 1) ;; ret lv
  else if streq flag "quiet" then
    modify (set_verbosity 0) ;; ret lv
  else
    when (argLength <? 3)%nat
      (chpl_error (not_a_valid_argument currentArg) lineno filename) ;;
    possible_config_var lv lineno filename.

(** [-E] and [-f] take their operand either glued on or from the next
    element of [argv]. *)
Definition parseEnvFlag (lv : locals) (currentArg : string) (lineno : Z)
    (filename : option string) : M locals :=
  if Ascii.eqb (char_at currentArg 2) NUL then
    let lv := set_i (S (i lv)) lv in
    when (length (argv lv) <=? i lv)%nat
      (chpl_error "-f flag is missing <filename> argument" lineno filename) ;;
    let currentArg := nth (i lv) (argv lv) "" in
    buf <- defineEnvVar currentArg 0 lineno filename ;;
    ret (set_argv (<[i lv := buf]> (argv lv)) lv)
  else
    buf <- defineEnvVar currentArg 2 lineno filename ;;
    ret (set_argv (<[i lv := buf]> (argv lv)) lv).

Definition parseFileFlag (lv : locals) (currentArg : string) (lineno : Z)
    (filename : option string) : M locals :=
  if Ascii.eqb (char_at currentArg 2) NUL then
    let lv := set_i (S (i lv)) lv in
    when (length (argv lv) <=? i lv)%nat
      (chpl_error "-f flag is missing <filename> argument" lineno filename) ;;
    let currentArg := nth (i lv) (argv lv) "" in
    parseConfigFile X currentArg lineno filename ;;
    ret lv
  else
    parseConfigFile X (advance 2 currentArg) lineno filename ;;
    ret lv.

Definition parseNumLocalesFlag (lv : locals) (currentArg : string)
    (lineno : Z) (filename : option string) : M locals :=
  if Ascii.eqb (char_at currentArg 2) "l" then
    if Ascii.eqb (char_at currentArg 3) NUL then
      let lv := set_i (S (i lv)) lv in
      when (length (argv lv) <=? i lv)%nat
        (chpl_error "-nl flag is missing <numLocales> argument"
                    lineno filename) ;;
      let numPtr := nth (i lv) (argv lv) "" in
      initSetValue X "numLocales" numPtr "Built-in" lineno filename ;;
      ret lv
    else
      let numPtr := advance 3 currentArg in
      initSetValue X "numLocales" numPtr "Built-in" lineno filename ;;
      ret lv
  else nonstandard lv lineno filename.

(** The [switch (currentArg[0])] of the loop body. *)
Definition parseSwitch (lv : locals) (currentArg : string) (argLength : nat)
    (lineno : Z) (filename : option string) : M locals :=
  if Ascii.eqb (char_at currentArg 0) "-" then
    let c := char_at currentArg 1 in
    let bare := Ascii.eqb (char_at currentArg 2) NUL in
    if Ascii.eqb c "-" then
      parseLongFlag lv currentArg argLength lineno filename
    else if Ascii.eqb c "a" then
      if bare then ret (set_printAbout true lv)
      else nonstandard lv lineno filename
    else if Ascii.eqb c "b" then
      if bare then modify (set_blockreport 1) ;; ret lv
      else nonstandard lv lineno filename
    else if Ascii.eqb c "E" then
      parseEnvFlag lv currentArg lineno filename
    else if Ascii.eqb c "f" then
      parseFileFlag lv currentArg lineno filename
    else if Ascii.eqb c "h" then
      if bare then push_main_arg "-h" ;; ret (set_printHelp true lv)
      else nonstandard lv lineno filename
    else if Ascii.eqb c "n" then
      parseNumLocalesFlag lv currentArg lineno filename
    else if Ascii.eqb c "q" then
      if bare then modify (set_verbosity 0) ;; ret lv
      else nonstandard lv lineno filename
    else if Ascii.eqb c "s" then
      when (argLength <? 3)%nat
        (chpl_error (not_a_valid_argument currentArg) lineno filename) ;;
      possible_config_var lv lineno filename
    else if Ascii.eqb c "t" then
      if bare then modify (set_taskreport 1) ;; ret lv
      else nonstandard lv lineno filename
    else if Ascii.eqb c "v" then
      if bare then modify (set_verbosity 2) ;; ret lv
      else nonstandard lv lineno filename
    else nonstandard lv lineno filename
  else nonstandard lv lineno filename.

(** One iteration of the [for] loop of [parseArgs], up to but without
    the [i++] of the loop header. *)
Definition parseArg (origargc : nat) (lv : locals) : M locals :=
  let filename := Some "<command-line arg>" in
  let argc := length (argv lv) in
  let lineno := (Z.of_nat (i lv) + (Z.of_nat origargc - Z.of_nat argc))%Z in
  let currentArg := nth (i lv) (argv lv) "" in
  let argLength := strlen currentArg in
  if mainHasArgs X && (stop_parsing lv || (argLength <? 2)%nat) then
    push_main_arg currentArg ;; ret lv
  else if mainHasArgs X && streq currentArg "--" then
    ret (set_stop_parsing true lv)
  else
    when (argLength <? 2)%nat
      (chpl_error (not_a_valid_argument currentArg) lineno filename) ;;
    parseSwitch lv currentArg argLength lineno filename.

(** [for (i = 1; i < *argc; i++) { ... }], with the number of
    iterations still allowed as the structurally decreasing argument;
    [parseArgs] starts it with [argc - 1], which is never used up before
    [i] reaches [argc] (lemma [parseArgs_loop_exit]). *)
Fixpoint parseArgs_loop (origargc : nat) (n : nat) (lv : locals)
    : M locals :=
  match n with
  | O => ret lv
  | S n' =>
      if (i lv <? length (argv lv))%nat then
        lv' <- parseArg origargc lv ;;
        parseArgs_loop origargc n' (set_i (S (i lv')) lv')
      else ret lv
  end.

(** What follows the loop. *)
Definition parseArgs_finish (lv : locals) : M unit :=
  when (printAbout lv)
    (chpl_program_about X ;; chpl_exit_any 0) ;;
  when (printHelp lv)
    (when (negb (mainHasArgs X))
       (printHelpTable ;; printConfigVarTable X ;; chpl_exit_any 0)).

Definition parseArgs_start (argv : list string) : locals :=
  mkLocals 1 false false false argv.

(** [parseArgs(&argc, argv)]; returns the array [argv] as the call
    leaves it. *)
Definition parseArgs (argv0 : list string) : M (list string) :=
  let origargc := length argv0 in
  lv <- parseArgs_loop origargc (origargc - 1) (parseArgs_start argv0) ;;
  parseArgs_finish lv ;;
  ret (argv lv).

(** The loop, started at the top of an iteration with locals [lv] and
    globals [g], gets to the top of an iteration with [lv'] and [g']. *)
Inductive arrives (origargc : nat)
    : locals -> globals -> locals -> globals -> Prop :=
  | arrives_here lv g : arrives origargc lv g lv g
  | arrives_next lv g lv1 g1 lv' g' :
      (i lv < length (argv lv))%nat ->
      parseArg origargc lv g = Done lv1 g1 ->
      arrives origargc (set_i (S (i lv1)) lv1) g1 lv' g' ->
      arrives origargc lv g lv' g'.

(** The iteration at [lv] looks at its argument as a flag: it is not in
    the mode after ["--"] in which arguments go to the Chapel main
    unparsed. *)
Definition dispatches (lv : locals) : Prop :=
  mainHasArgs X && stop_parsing lv = false.

End WithWorld.

Arguments globals : clear implicits.
Arguments externals : clear implicits.
Arguments M : clear implicits.
Arguments result : clear implicits.
Arguments Done {World A} a g.
Arguments Halted {World A} h g.

Notation "x <- m ;; k" := (bind m (fun x => k))
  (at level 100, m at next level, right associativity).
Notation "m ;; k" := (bind m (fun _ => k))
  (at level 100, right associativity).

Definition is_blockreport_flag (a : string) : Prop :=
  cstr a = "-b" \/ cstr a = "--blockreport".
Definition is_taskreport_flag (a : string) : Prop :=
  cstr a = "-t" \/ cstr a = "--taskreport".

(** Everything in the state apart from the environment and from what
    only [defineEnvVar] looks at ([errno], its static [errmsg]): the
    part the user and the rest of the runtime can observe. *)
Definition visible {World} (g : globals World)
    : Z * Z * Z * Z * Z * list string * bool * list string * World :=
  (gdbFlag g, blockreport g, taskreport g, verbosity g, _argNumLocales g,
   chpl_gen_main_arg g, heap_exhausted g, stdout g, world g).

(** The three configuration counters of the runtime. *)
Definition counters {World} (g : globals World) : Z * Z * Z :=
  (verbosity g, blockreport g, taskreport g).

(** The entry points of [arg.c] other than [parseArgs]. *)
Inductive arg_operation : Type :=
  | op_runInGDB
  | op_printHelpTable
  | op_parseNumLocales (numPtr : string) (lineno : Z) (filename : option string)
  | op_getArgNumLocales
  | op_chpl_specify_locales_error.

Definition perform {World} (X : externals World) (o : arg_operation)
    : M World unit :=
  match o with
  | op_runInGDB => _ <- _runInGDB ;; ret tt
  | op_printHelpTable => printHelpTable X
  | op_parseNumLocales numPtr lineno filename =>
      parseNumLocales X numPtr lineno filename
  | op_getArgNumLocales => _ <- getArgNumLocales ;; ret tt
  | op_chpl_specify_locales_error =>
      _ <- chpl_specify_locales_error ;; ret tt
  end.

(** A sequence of such calls; it ends early if one of them stops the
    process. *)
Fixpoint perform_all {World} (X : externals World) (os : list arg_operation)
    : M World unit :=
  match os with
  | [] => ret tt
  | o :: os' => perform X o ;; perform_all X os'
  end.

(** *** Vocabulary for the theorems *)


Definition push_flag {World} (f : string) (g : globals World)
    : globals World :=
  set_chpl_gen_main_arg (chpl_gen_main_arg g ++ [f]) g.

Section Relations.
Context {World : Type}.
Implicit Types (g : globals World) (R : relation (globals World)).

(** [m] takes every state to one that [R] relates it to, whether it
    returns or stops the process. *)
Definition respects R {A} (m : M World A) : Prop :=
  forall g, R g (state_of (m g)).

(** The externals all respect [R]. *)
Record externals_respect R (X : externals World) : Prop := {
  respects_handlePossibleConfigVar av n l f :
    respects R (handlePossibleConfigVar X av n l f);
  respects_handleNonstandardArg av n l f :
    respects R (handleNonstandardArg X av n l f);
  respects_parseConfigFile s l f : respects R (parseConfigFile X s l f);
  respects_initSetValue a b c l f : respects R (initSetValue X a b c l f);
  respects_printAdditionalHelp : respects R (printAdditionalHelp X);
  respects_printConfigVarTable : respects R (printConfigVarTable X);
  respects_chpl_program_about : respects R (chpl_program_about X)
}.

(** [f] has the same value before and after. *)
Definition keeps {B} (f : globals World -> B) : relation (globals World) :=
  fun g g' => f g' = f g.

(** With [overwrite = 0], [setenv] leaves every variable that is set as
    it is. *)
Definition keeps_set_variables : relation (globals World) :=
  fun g g' => forall name,
    is_Some (environ g !! name) -> environ g' !! name = environ g !! name.

(** [f] is either left alone or set to 1, the latter only if [P]. *)
Definition sets_to_one (f : globals World -> Z) (P : Prop)
    : relation (globals World) :=
  fun g g' => f g' = f g \/ (f g' = 1%Z /\ P).

(** [m], when it returns, returns a value with [P]. *)
Definition returns {A} (m : M World A) (P : A -> Prop) : Prop :=
  forall g a g', m g = Done a g' -> P a.

(** An iteration leaves [argv] as it was and never moves [i] back. *)
Definition advances (lv lv' : locals) : Prop :=
  argv lv' = argv lv /\ (i lv <= i lv')%nat.

Variable X : externals World.

(** What [R] has to allow for an iteration that looks at [cur]: the
    assignments of the loop body.  The two report toggles are only
    assigned under their own flags. *)
Record leaves R (cur : string) : Prop := {
  leaf_gdbFlag v g : R g (set_gdbFlag v g);
  leaf_verbosity v g : R g (set_verbosity v g);
  leaf_blockreport g : is_blockreport_flag cur -> R g (set_blockreport 1 g);
  leaf_taskreport g : is_taskreport_flag cur -> R g (set_taskreport 1 g);
  leaf_main_arg a g :
    R g (set_chpl_gen_main_arg (chpl_gen_main_arg g ++ [a]) g);
  leaf_defineEnvVar buf off l f : respects R (defineEnvVar X buf off l f)
}.

End Relations.

(** *** Stand-ins for evaluating examples

    Every theorem below is stated for arbitrary externals; the following
    instance serves where an example needs a concrete one. *)

Definition digit_of (c : ascii) : option Z :=
  let n := nat_of_ascii c in
  if (48 <=? n)%nat && (n <=? 57)%nat then Some (Z.of_nat (n - 48)) else None.

Fixpoint digits (s : string) (acc : Z) : Z * string :=
  match s with
  | "" => (acc, "")
  | String c s' =>
      match digit_of c with
      | Some d => digits s' (10 * acc + d)%Z
      | None => (acc, s)
      end
  end.

Definition wrap_int32 (z : Z) : Z := ((z + 2 ^ 31) mod 2 ^ 32 - 2 ^ 31)%Z.

(** A decimal converter in the manner of [strtol]: optional sign,
    digits, and the flag is raised when the string is empty or
    characters are left over. *)
Definition decimal_int32_precise (str : string) : Z * bool * ascii :=
  let '(neg, body) :=
    match str with
    | String "-" r => (true, r)
    | String "+" r => (false, r)
    | _ => (false, str)
    end in
  let '(v, rest) := digits (cstr body) 0 in
  let endPtr := if String.eqb rest (cstr body) then cstr str else rest in
  (wrap_int32 (if neg then - v else v),
   String.eqb (cstr str) "" || negb (String.eqb endPtr ""),
   char_at endPtr 0).

(** Externals whose config layer accepts everything and prints
    nothing. *)
Definition plain_externals (mha : bool) : externals unit :=
  {| mainHasArgs := mha;
     c_string_to_int32_t_precise := decimal_int32_precise;
     strerror := fun e => if (e =? EINVAL)%Z then "Invalid argument"
                          else "Cannot allocate memory";
     handlePossibleConfigVar := fun _ _ _ _ => ret O;
     handleNonstandardArg := fun _ _ _ _ => ret O;
     parseConfigFile := fun _ _ _ => ret tt;
     initSetValue := fun _ _ _ _ _ => ret tt;
     printAdditionalHelp := ret tt;
     printConfigVarTable := ret tt;
     chpl_program_about := ret tt |}.

Definition fresh_globals : globals unit :=
  initial_globals 1 ["prog"] ∅ false tt.

End Arg.

(* ===================================================================== *)
(** ** The structured-parallelism core *)
(* ===================================================================== *)

Module Runtime.

Local Open Scope list_scope.

(** A Task Descriptor is named by the position at which it was
    registered with its group; an error by its content. *)
Definition task_id : Type := nat.
Definition error : Type := string.

(** Modelled from the spec: the Task Descriptor states of section 3,
    [Runnable -> Running -> {Completed | Failed}] with [Suspended] on the
    side; the worker pool that drives them is not part of the sources. *)
Inductive task_state : Type :=
  | Runnable
  | Running
  | Suspended
  | Completed
  | Failed (e : error).

#[global] Instance task_state_eq_dec : EqDecision task_state.
Proof. unfold error; solve_decision. Defined.

Definition is_terminal (s : task_state) : bool :=
  match s with
  | Completed | Failed _ => true
  | Runnable | Running | Suspended => false
  end.

Definition failure (s : task_state) : option error :=
  match s with
  | Failed e => Some e
  | _ => None
  end.

Inductive outcome : Type :=
  | Completes
  | Fails (e : error).

Definition terminal_state (o : outcome) : task_state :=
  match o with
  | Completes => Completed
  | Fails e => Failed e
  end.

(** *** Error Aggregator (section 4.4) *)

(** Modelled from the spec: the Error Aggregator, an ordered sequence
    of errors; [record] appends, [drain] hands the sequence out and
    leaves the aggregator empty.  Its implementation is not part of the
    sources. *)
Definition aggregator : Type := list error.

Definition record (e : error) (a : aggregator) : aggregator := a ++ [e].

Definition drain (a : aggregator) : list error * aggregator := (a, []).

(** *** Structured Task Group (section 4.2) *)

Inductive join_result : Type :=
  | JoinReturns
  | JoinRaises (errors : list error).

Inductive parent_state : Type :=
  | ParentRunning
  | ParentSuspended
  | ParentResumed (r : join_result).

(** Modelled from the spec: the Structured Task Group of sections 3 and
    4.2 (expected-child count, completion counter, error list), together
    with the state of each registered child and of the parent; its
    implementation is not part of the sources. *)
Record group : Type := mkGroup {
  unbounded : bool;
  expected : nat;
  completed : nat;
  children : list task_state;
  errors : aggregator;
  parent : parent_state
}.

#[global] Instance join_result_eq_dec : EqDecision join_result.
Proof. unfold error; solve_decision. Defined.

#[global] Instance parent_state_eq_dec : EqDecision parent_state.
Proof. solve_decision. Defined.

(** A violation of the group's accounting stops the process. *)
Inductive step_result : Type :=
  | Next (g : group)
  | FatalRuntimeError.

(** [open(expected_count | unbounded)] *)
Definition open (expected_count : option nat) : group :=
  match expected_count with
  | Some n => mkGroup false n O [] [] ParentRunning
  | None => mkGroup true O O [] [] ParentRunning
  end.

Definition destroyed (g : group) : bool :=
  match parent g with
  | ParentResumed _ => true
  | _ => false
  end.

(** [register_child(descriptor)]: the new child gets the next free
    position and starts [Runnable]; the expected count grows when the
    group is unbounded. *)
Definition register_child (g : group) : step_result :=
  if destroyed g then FatalRuntimeError
  else Next (mkGroup (unbounded g)
                     (if unbounded g then S (expected g) else expected g)
                     (completed g) (children g ++ [Runnable]) (errors g)
                     (parent g)).

(** The worker pool moving child [t] from state [from] to state [to]. *)
Definition transition (from to : task_state) (t : task_id) (g : group)
    : step_result :=
  if destroyed g then FatalRuntimeError
  else match children g !! t with
       | Some s =>
           if bool_decide (s = from)
           then Next (mkGroup (unbounded g) (expected g) (completed g)
                              (<[t := to]> (children g)) (errors g) (parent g))
           else FatalRuntimeError
       | None => FatalRuntimeError
       end.

(** What [join] hands to the parent once the counter has reached the
    expected count. *)
Definition raise_or_return (es : list error) : join_result :=
  match es with
  | [] => JoinReturns
  | _ :: _ => JoinRaises es
  end.

(** Closes the group if the parent waits at the join point and the
    counter has reached the expected count: the parent is released with
    what [drain] gives.  Closing a group while one of its children is
    still live is a violation of the accounting (sections 4.2 and 7). *)
Definition release (g : group) : step_result :=
  match parent g with
  | ParentSuspended =>
      if (completed g =? expected g)%nat then
        if forallb is_terminal (children g) then
          let '(es, a) := drain (errors g) in
          Next (mkGroup (unbounded g) (expected g) (completed g) (children g)
                        a (ParentResumed (raise_or_return es)))
        else FatalRuntimeError
      else Next g
  | _ => Next g
  end.

(** [on_child_terminal(task, outcome)]: the child leaves [Running] for
    its terminal state, the counter goes up, a failure is recorded; a
    report for a child that is not running (a second report among them)
    is fatal. *)
Definition on_child_terminal (t : task_id) (o : outcome) (g : group)
    : step_result :=
  if destroyed g then FatalRuntimeError
  else match children g !! t with
       | Some Running =>
           release
             (mkGroup (unbounded g) (expected g) (S (completed g))
                      (<[t := terminal_state o]> (children g))
                      (match o with
                       | Fails e => record e (errors g)
                       | Completes => errors g
                       end)
                      (parent g))
       | _ => FatalRuntimeError
       end.

(** [join()]: the parent arrives at the join point. *)
Definition join (g : group) : step_result :=
  match parent g with
  | ParentRunning =>
      release (mkGroup (unbounded g) (expected g) (completed g)
                       (children g) (errors g) ParentSuspended)
  | _ => FatalRuntimeError
  end.

Inductive event : Type :=
  | RegisterChild
  | Dispatch (t : task_id)
  | Block (t : task_id)
  | Wake (t : task_id)
  | ChildTerminal (t : task_id) (o : outcome)
  | Join.

Definition step (e : event) (g : group) : step_result :=
  match e with
  | RegisterChild => register_child g
  | Dispatch t => transition Runnable Running t g
  | Block t => transition Running Suspended t g
  | Wake t => transition Suspended Runnable t g
  | ChildTerminal t o => on_child_terminal t o g
  | Join => join g
  end.

(** Any interleaving of the parent's and the workers' operations is a
    list of events. *)
Fixpoint run (tr : list event) (g : group) : step_result :=
  match tr with
  | [] => Next g
  | e :: tr' =>
      match step e g with
      | Next g' => run tr' g'
      | FatalRuntimeError => FatalRuntimeError
      end
  end.

(** The errors of the children that failed, in registration order. *)
Definition failed_errors (g : group) : list error :=
  omap failure (children g).

(** The failures the workers reported, in the order of arrival. *)
Definition reported_failure (e : event) : option error :=
  match e with
  | ChildTerminal _ (Fails err) => Some err
  | _ => None
  end.

Definition reported_failures (tr : list event) : list error :=
  omap reported_failure tr.

(** The errors the group has recorded: still in the aggregator, or
    already handed to the parent. *)
Definition recorded (g : group) : list error :=
  match parent g with
  | ParentResumed JoinReturns => []
  | ParentResumed (JoinRaises es) => es
  | _ => errors g
  end.

(** The number of children in a terminal state. *)
Fixpoint terminated (l : list task_state) : nat :=
  match l with
  | [] => O
  | s :: l' => ((if is_terminal s then 1 else 0) + terminated l')%nat
  end.

(** The accounting every reachable group satisfies. *)
Definition consistent (g : group) : Prop :=
  completed g = terminated (children g)
  /\ (unbounded g = true -> expected g = length (children g))
  /\ recorded g ≡ₚ failed_errors g
  /\ (parent g = ParentSuspended -> completed g <> expected g)
  /\ (forall r, parent g = ParentResumed r ->
        completed g = expected g /\ errors g = [] /\
        r = raise_or_return (recorded g) /\
        Forall (fun s => is_terminal s = true) (children g)).

(** *** Schedules *)

(** The interleavings of the operations of a parent task ([p], in
    program order) with those of the children it spawns ([cs], child
    [t] at position [t], each in its own program order): a child acts
    only once it has been registered, [n] children having been
    registered so far. *)
Inductive schedule
    : list event -> list (list event) -> nat -> list event -> Prop :=
  | schedule_done cs n :
      Forall (fun c => c = []) cs -> schedule [] cs n []
  | schedule_parent e p cs n tr :
      schedule p cs (match e with RegisterChild => S n | _ => n end) tr ->
      schedule (e :: p) cs n (e :: tr)
  | schedule_child t e c p cs n tr :
      cs !! t = Some (e :: c) -> (t < n)%nat ->
      schedule p (<[t := c]> cs) n tr ->
      schedule p cs n (e :: tr).

(** All of them, for at most [fuel] operations. *)
Fixpoint schedules (fuel : nat) (p : list event) (cs : list (list event))
    (n : nat) : list (list event) :=
  (if forallb (fun c => match c with [] => true | _ => false end) (p :: cs)
   then [[]] else []) ++
  match fuel with
  | O => []
  | S fuel' =>
      match p with
      | [] => []
      | e :: p' =>
          map (cons e)
              (schedules fuel' p' cs
                 (match e with RegisterChild => S n | _ => n end))
      end ++
      concat (imap (fun t c =>
                match c with
                | [] => []
                | e :: c' =>
                    if (t <? n)%nat
                    then map (cons e) (schedules fuel' p (<[t := c']> cs) n)
                    else []
                end) cs)
  end.

(** *** test/errhandling/parallel/begin-throws.chpl *)

Definition test_error : error := "test error".

(** The [sync] block of [test]: the parent registers the two [begin]
    tasks and joins; each task, once a worker runs it, throws. *)
Definition sync_block_parent : list event := [RegisterChild; RegisterChild; Join].
Definition begin_task (t : task_id) : list event :=
  [Dispatch t; ChildTerminal t (Fails test_error)].

(** One schedule of the block: the parent gets to the join point
    before either task runs. *)
Definition sync_block_events : list event :=
  sync_block_parent ++ begin_task 0 ++ begin_task 1.

(** [proc test()] under a schedule of its [sync] block: what it prints,
    or [None] when the process stops or the parent is never released. *)
Definition test (sync_block : list event) : option (list string) :=
  match run sync_block (open None) with
  | Next g =>
      match parent g with
      | ParentResumed JoinReturns =>
          Some ["before sync block"; "after sync block"]
      | ParentResumed (JoinRaises errors) =>
          Some ("before sync block"
                :: map (fun e => "Caught group error e " +:+ e) errors)
      | _ => None
      end
  | FatalRuntimeError => None
  end.

(** *** Synchronization Cell (section 3) *)






Section Unspecified.

(** The specification does not say which value a [Full] cell holds
    after another write; [refill old new] stands for it. *)
Variable refill : Z -> Z -> Z.






End Unspecified.




End Runtime.

(* ===================================================================== *)
(** ** runtime/src/arg.c: vocabulary for whole runs *)
(* ===================================================================== *)

Module ArgExtra.
Import CString Arg.

(** The [lineno] and [filename] that [parseArgs] hands to the functions
    it calls. *)
Definition lineno_of (origargc : nat) (lv : locals) : Z :=
  (Z.of_nat (i lv) + (Z.of_nat origargc - Z.of_nat (length (argv lv))))%Z.

Definition command_line : option string := Some "<command-line arg>".

(** How a run ends: whether and how the process stopped, and the state
    it left. *)
Definition ending {World A} (r : result World A)
    : option halt * globals World :=
  match r with
  | Done _ g => (None, g)
  | Halted h g => (Some h, g)
  end.

Definition is_verbose_flag (a : string) : Prop :=
  cstr a = "-v" \/ cstr a = "--verbose".
Definition is_quiet_flag (a : string) : Prop :=
  cstr a = "-q" \/ cstr a = "--quiet".


Section Relations.
Context {World : Type}.
Implicit Types (g : globals World) (R : relation (globals World)).

(** [verbosity] is left alone, or set to 2 (only if [P2]), or set to 0
    (only if [P0]). *)
Definition verbosity_set (P2 P0 : Prop) : relation (globals World) :=
  fun g g' => verbosity g' = verbosity g
              \/ (verbosity g' = 2%Z /\ P2) \/ (verbosity g' = 0%Z /\ P0).

(** [gdbFlag] is left alone, or set to a position with [P]. *)
Definition gdbFlag_set (P : nat -> Prop) : relation (globals World) :=
  fun g g' => gdbFlag g' = gdbFlag g
              \/ exists j, P j /\ gdbFlag g' = Z.of_nat j.

(** The argument vector of the Chapel main only grows at its end, by
    strings with [S]. *)
Definition main_arg_grows (S : string -> Prop) : relation (globals World) :=
  fun g g' => exists more : list string,
    chpl_gen_main_arg g' = (chpl_gen_main_arg g ++ more)%list
    /\ Forall S more.

Variable X : externals World.

(** What [R] has to allow for the iteration at position [idx] that
    looks at [cur]: every assignment of the loop body, each under the
    flag that leads to it. *)
Record assignments R (idx : nat) (cur : string) : Prop := {
  assign_gdbFlag g :
    cstr cur = "--gdb" -> R g (set_gdbFlag (Z.of_nat idx) g);
  assign_verbose g : is_verbose_flag cur -> R g (set_verbosity 2 g);
  assign_quiet g : is_quiet_flag cur -> R g (set_verbosity 0 g);
  assign_blockreport g :
    is_blockreport_flag cur -> R g (set_blockreport 1 g);
  assign_taskreport g : is_taskreport_flag cur -> R g (set_taskreport 1 g);
  assign_help g f :
    f = "-h" \/ f = "--help" -> cstr cur = f -> R g (push_flag f g);
  assign_pass_through g : mainHasArgs X = true -> R g (push_flag cur g);
  assign_defineEnvVar buf off l f : respects R (defineEnvVar X buf off l f)
}.

End Relations.

End ArgExtra.

(* ===================================================================== *)
(** ** Block LU: the iterator [blockedA] *)
(* ===================================================================== *)

Module BlockLU.
Local Open Scope Z_scope.
Local Open Scope list_scope.

(** A one-dimensional arithmetic domain [low..high]; it is empty when
    [high < low].  Chapel's [int] is taken as unbounded: the sizes the
    program works with are far from the 64-bit limits. *)
Record domain1 : Type := Span { low : Z; high : Z }.

(** [D.numIndices] *)
Definition numIndices (D : domain1) : Z := Z.max 0 (high D - low D + 1).

(** [D(a..b)]: the indices of [D] that lie in [a..b]. *)
Definition slice (D : domain1) (a b : Z) : domain1 :=
  Span (Z.max (low D) a) (Z.min (high D) b).

(** The indices of a domain, in order. *)
Definition indices (D : domain1) : list Z := seqZ (low D) (numIndices D).

(** The second component of what [blockedA] yields: a slice of the
    domain, or the literal [[0]]. *)
Inductive unfactored : Type :=
  | Rest (R : domain1)
  | Zero.

(** [for i in D by blksize], for a positive [blksize]: [i] starts at the
    low bound and is stepped while it is in the domain.  A domain of
    [n] indices is left after at most [n] steps. *)
Fixpoint strided (fuel : nat) (i hi blksize : Z) : list Z :=
  match fuel with
  | O => []
  | S fuel' =>
      if i <=? hi then i :: strided fuel' (i + blksize) hi blksize else []
  end.

Definition by_stride (D : domain1) (blksize : Z) : list Z :=
  strided (Z.to_nat (numIndices D)) (low D) (high D) blksize.

(** One turn of the loop of [blockedA]. *)
Definition blockedA_body (D : domain1) (blksize : Z) (i : Z)
    : domain1 * unfactored :=
  let n := numIndices D in
  let lo := i in
  let hi := if i + blksize - 1 <? n then i + blksize - 1 else n in
  if hi + 1 <? n then (slice D i hi, Rest (slice D (hi + 1) n))
  else (slice D i hi, Zero).

(** [iterator blockedA(D, blksize)]: what it yields, in order. *)
Definition blockedA (D : domain1) (blksize : Z)
    : list (domain1 * unfactored) :=
  map (blockedA_body D blksize) (by_stride D blksize).

End BlockLU.

(* ===================================================================== *)
(** ** util/test/paratest.chapcs *)
(* ===================================================================== *)

Module Paratest.
Local Open Scope list_scope.

(** [s.split(sep)] for a one-character separator: the fields between
    the separators; there is always at least one. *)
Fixpoint split (sep : ascii) (s : string) : list string :=
  match s with
  | "" => [""]
  | String c s' =>
      if Ascii.eqb c sep then "" :: split sep s'
      else match split sep s' with
           | field :: fields => String c field :: fields
           | [] => [String c ""]
           end
  end.

(** What a line adds to [(num_exclusive_nodes, exclusive_hostnames)]:
    nodes asked for without naming them, and hosts named. *)
Definition add_to (acc c : Z * gset string) : Z * gset string :=
  ((acc.1 + c.1)%Z, acc.2 ∪ c.2).

(** What the loop of [get_exclusive_nodes] can raise, with what tells
    one exception from another. *)
Inductive exception : Type :=
  | ValueError_unpack (fields : nat)    (* line 80: not four fields    *)
  | ValueError_int (num_nodes : string) (* line 86: int(num_nodes)     *)
  | CommandError (nodes : string).      (* line 84: scontrol fails     *)

Inductive raised (A : Type) : Type :=
  | Returns (a : A)
  | Raises (e : exception).
Arguments Returns {A} a.
Arguments Raises {A} e.

Section WithCluster.

(** What the script takes from Python and from the cluster; [None]
    where the call raises. *)
Variable upper : string -> string.                     (* str.upper *)
Variable int : string -> option Z.                     (* int(s)    *)
Variable expand_hostnames : string -> option (list string).
                                    (* scontrol show hostname <list> *)

(** One turn of the loop of [get_exclusive_nodes], on
    [(num_exclusive_nodes, exclusive_hostnames)]. *)
Definition exclusive_line (acc : Z * gset string) (line : string)
    : raised (Z * gset string) :=
  match split ";" line with
  | [oversub; num_nodes; nodelist; req_nodes] =>
      if negb (String.eqb (upper oversub) "YES") then
        let nodes := if negb (String.eqb nodelist "") then nodelist
                     else req_nodes in
        if negb (String.eqb nodes "") then
          match expand_hostnames nodes with
          | Some hosts => Returns (acc.1, acc.2 ∪ list_to_set hosts)
          | None => Raises (CommandError nodes)
          end
        else
          match int num_nodes with
          | Some k => Returns ((acc.1 + k)%Z, acc.2)
          | None => Raises (ValueError_int num_nodes)
          end
      else Returns acc
  | fields => Raises (ValueError_unpack (length fields))
  end.

(** The loop: the first line that raises ends it. *)
Fixpoint exclusive_lines (lines : list string) (acc : Z * gset string)
    : raised (Z * gset string) :=
  match lines with
  | [] => Returns acc
  | line :: lines' =>
      match exclusive_line acc line with
      | Returns acc' => exclusive_lines lines' acc'
      | Raises e => Raises e
      end
  end.

(** [get_exclusive_nodes()], given the lines that [squeue] and [sinfo]
    answered. *)
Definition get_exclusive_nodes (squeue_out sinfo_out : list string)
    : raised (Z * gset string) :=
  match exclusive_lines (squeue_out ++ sinfo_out) (0%Z, ∅) with
  | Returns (num_exclusive_nodes, exclusive_hostnames) =>
      Returns ((num_exclusive_nodes + Z.of_nat (size exclusive_hostnames))%Z,
               exclusive_hostnames)
  | Raises e => Raises e
  end.

(** [get_num_oversub_jobs()] *)
Definition get_num_oversub_jobs (squeue_out : list string) : nat :=
  length (filter (fun s => s = "YES") (map upper squeue_out)).

(** [get_good_nodepara()]; [comm] is [chpl_comm.get()]. *)
Definition get_good_nodepara (comm : string) (squeue_out : list string)
    : Z :=
  let nodepara := 3%Z in
  let nodepara := if negb (String.eqb comm "none") then 2%Z else nodepara in
  let nodepara := if (get_num_oversub_jobs squeue_out =? 0)%nat
                  then (nodepara + 1)%Z else nodepara in
  nodepara.

End WithCluster.

(** [datetime.time(hour, minute, second, microsecond)] *)
Record time : Type := mkTime {
  hour : Z; minute : Z; second : Z; microsecond : Z
}.

(** [a <= b] on times without a time zone: field by field, the hour
    first. *)
Definition time_le (a b : time) : bool :=
  if (hour a <? hour b)%Z then true
  else if (hour b <? hour a)%Z then false
  else if (minute a <? minute b)%Z then true
  else if (minute b <? minute a)%Z then false
  else if (second a <? second b)%Z then true
  else if (second b <? second a)%Z then false
  else (microsecond a <=? microsecond b)%Z.

(** [running_during_nightly()]; [now] is [datetime.datetime.now().time()]. *)
Definition running_during_nightly (now : time) : bool :=
  let nightly_start_exclusive := mkTime 1 30 0 0 in
  let nightly_end_exclusive := mkTime 4 30 0 0 in
  time_le nightly_start_exclusive now && time_le now nightly_end_exclusive.

(** What a valid [datetime.time] holds. *)
Definition valid_time (t : time) : Prop :=
  (0 <= hour t < 24 /\ 0 <= minute t < 60 /\ 0 <= second t < 60
   /\ 0 <= microsecond t < 1000000)%Z.

(** Microseconds since midnight. *)
Definition since_midnight (t : time) : Z :=
  (((hour t * 60 + minute t) * 60 + second t) * 1000000 + microsecond t)%Z.

End Paratest.

(* ===================================================================== *)
(** ** Facts about C strings *)
(* ===================================================================== *)

Module CStringFacts.
Import CString.

Lemma cstr_no_nul s : strchr s NUL = None -> cstr s = s.
Proof.
  induction s as [|a s IH]; simpl; [done|].
  destruct (Ascii.eqb a NUL) eqn:E; [done|].
  intros H. destruct (strchr s NUL); [done|]. by rewrite IH.
Qed.

Lemma poke_poke s n c d : poke (poke s n c) n d = poke s n d.
Proof.
  revert n; induction s as [|a s IH]; intros [|n]; simpl; try done.
  by rewrite IH.
Qed.

(** Writing back the byte that [strchr] found restores the array. *)
Lemma poke_strchr s c k : strchr s c = Some k -> poke s k c = s.
Proof.
  revert k; induction s as [|a s IH]; intros k; simpl; [done|].
  destruct (Ascii.eqb a c) eqn:E.
  - intros [= <-]. apply Ascii.eqb_eq in E. by subst.
  - destruct (Ascii.eqb a NUL); [done|].
    destruct (strchr s c) as [k'|] eqn:Hk; [|done].
    intros [= <-]. simpl. by rewrite IH.
Qed.

Lemma poke_advance s off k c :
  advance off (poke s (off + k)%nat c) = poke (advance off s) k c.
Proof.
  revert s; induction off as [|off IH]; intros [|a s]; simpl; done.
Qed.

Lemma poke_at_advance s off k c :
  poke (advance off s) k c = advance off s ->
  poke s (off + k)%nat c = s.
Proof.
  revert s; induction off as [|off IH]; intros [|a s]; simpl; try done.
  intros H. by rewrite IH.
Qed.

Lemma strchr_advance_poke s off k c :
  strchr (advance off s) c = Some k ->
  poke (poke s (off + k)%nat NUL) (off + k)%nat c = s.
Proof.
  intros H. rewrite poke_poke. apply poke_at_advance. by apply poke_strchr.
Qed.

Lemma cstr_idem s : cstr (cstr s) = cstr s.
Proof.
  induction s as [|a s IH]; simpl; [done|].
  destruct (Ascii.eqb a NUL) eqn:E; simpl; [done|]. by rewrite E, IH.
Qed.

(** Reading inside the C string does not depend on what the array holds
    after the terminator. *)
Lemma char_at_cstr s n :
  (n <= strlen s)%nat -> char_at s n = char_at (cstr s) n.
Proof.
  unfold strlen, char_at. revert n.
  induction s as [|a s IH]; intros n; simpl; [done|].
  destruct (Ascii.eqb a NUL) eqn:E; simpl.
  - intros Hn. assert (n = O) as -> by lia. simpl.
    apply Ascii.eqb_eq in E. by subst.
  - destruct n as [|n]; simpl; [done|]. intros Hn. apply IH. lia.
Qed.

Lemma cstr_advance s n :
  (n <= strlen s)%nat -> cstr (advance n s) = advance n (cstr s).
Proof.
  unfold strlen. revert n.
  induction s as [|a s IH]; intros n; simpl.
  - by destruct n.
  - destruct (Ascii.eqb a NUL) eqn:E; simpl.
    + intros Hn. assert (n = O) as -> by lia. simpl. by rewrite E.
    + destruct n as [|n]; simpl; [by rewrite E|]. intros Hn. apply IH. lia.
Qed.

Lemma streq_eq a b : streq a b = true <-> cstr a = cstr b.
Proof. unfold streq. apply String.eqb_eq. Qed.

Lemma streq_neq a b : streq a b = false <-> cstr a <> cstr b.
Proof. unfold streq. apply String.eqb_neq. Qed.

(** A C string of at least two characters is its first two characters
    followed by the C string two bytes further on. *)
Lemma cstr_two s :
  (2 <= strlen s)%nat ->
  cstr s = String (char_at s 0) (String (char_at s 1) (cstr (advance 2 s))).
Proof.
  unfold strlen, char_at.
  destruct s as [|a [|b s]]; simpl.
  - lia.
  - destruct (Ascii.eqb a NUL); simpl; lia.
  - destruct (Ascii.eqb a NUL); simpl; [lia|].
    destruct (Ascii.eqb b NUL); simpl; [lia|done].
Qed.

Lemma cstr_advance_nul s n :
  (n <= strlen s)%nat -> char_at s n = NUL -> cstr (advance n s) = "".
Proof.
  unfold strlen, char_at. revert n.
  induction s as [|a s IH]; intros n; simpl.
  - by destruct n.
  - destruct (Ascii.eqb a NUL) eqn:E; simpl.
    + intros Hn. assert (n = O) as -> by lia. simpl. by rewrite E.
    + destruct n as [|n]; simpl.
      * intros _ ->. done.
      * intros Hn. apply IH. lia.
Qed.

End CStringFacts.

(* ===================================================================== *)
(** ** Facts about arg.c *)
(* ===================================================================== *)

Module ArgFacts.
Import CString CStringFacts Arg.

Section Frames.
Context {World : Type}.
Implicit Types (g : globals World) (R : relation (globals World)).

Lemma respects_ret R `{!Reflexive R} {A} (a : A) : respects R (ret a).
Proof. intros g. simpl. reflexivity. Qed.

Lemma respects_gets R `{!Reflexive R} {A} (f : globals World -> A) :
  respects R (gets f).
Proof. intros g. simpl. reflexivity. Qed.

Lemma respects_chpl_error R `{!Reflexive R} {A} msg lineno filename :
  respects R (chpl_error (A := A) msg lineno filename).
Proof. intros g. simpl. reflexivity. Qed.

Lemma respects_chpl_exit_any R `{!Reflexive R} {A} status :
  respects R (chpl_exit_any (A := A) status).
Proof. intros g. simpl. reflexivity. Qed.

Lemma respects_modify R f : (forall g, R g (f g)) -> respects R (modify f).
Proof. intros H g. apply H. Qed.

Lemma respects_bind R `{!Transitive R} {A B} (m : M World A)
    (k : A -> M World B) :
  respects R m -> (forall a, respects R (k a)) -> respects R (bind m k).
Proof.
  intros Hm Hk g. unfold bind. specialize (Hm g).
  destruct (m g) as [a g'|h g']; simpl in *; [|done].
  etransitivity; [exact Hm|apply Hk].
Qed.

Lemma respects_when R `{!Reflexive R} b (m : M World unit) :
  respects R m -> respects R (when b m).
Proof. intros Hm. destruct b; simpl; [done|]. by apply respects_ret. Qed.

Lemma state_of_bind {A B} (m : M World A) (k : A -> M World B) g :
  state_of (bind m k g) =
  match m g with
  | Done a g' => state_of (k a g')
  | Halted _ g' => g'
  end.
Proof. unfold bind. by destruct (m g). Qed.

#[global] Instance keeps_refl {B} (f : globals World -> B) :
  Reflexive (keeps f).
Proof. by intros g. Qed.

#[global] Instance keeps_trans {B} (f : globals World -> B) :
  Transitive (keeps f).
Proof. intros g1 g2 g3 H1 H2. unfold keeps in *. congruence. Qed.

End Frames.

Create HintDb frame.
#[global] Hint Resolve respects_handlePossibleConfigVar
  respects_handleNonstandardArg respects_parseConfigFile respects_initSetValue
  respects_printAdditionalHelp respects_printConfigVarTable
  respects_chpl_program_about : frame.

(** Walks through a computation: binds, conditionals and the leaves
    that change nothing; what is left are the [modify] leaves. *)
Ltac frame_walk :=
  repeat match goal with
    | |- respects _ (bind _ _) => apply respects_bind; [tc_solve| |intros ?]
    | |- respects _ (when _ _) => apply respects_when; [tc_solve|]
    | |- respects _ (ret _) => apply respects_ret; tc_solve
    | |- respects _ (gets _) => apply respects_gets; tc_solve
    | |- respects _ (chpl_error _ _ _) => apply respects_chpl_error; tc_solve
    | |- respects _ (chpl_exit_any _) => apply respects_chpl_exit_any; tc_solve
    | |- respects _ (if ?b then _ else _) => destruct b eqn:?
    | |- respects _ (match ?o with Some _ => _ | None => _ end) =>
        destruct o eqn:?
    | |- respects _ (let '(_, _) := ?p in _) => destruct p eqn:?
    | |- respects _ _ => solve [eauto 2 with frame]
    end.

Section WithExternals.
Context {World : Type} (X : externals World).
Implicit Types (g : globals World) (R : relation (globals World)).
Local Abbreviation leaves := (leaves X).
Local Abbreviation keeps_set_variables := (@keeps_set_variables World).
Local Abbreviation returns := (returns (World := World)).

(** *** setenv and defineEnvVar *)

Lemma setenv_returns name value overwrite g :
  exists rc g', setenv name value overwrite g = Done rc g'.
Proof. unfold setenv. repeat case_match; eauto. Qed.

#[global] Instance keeps_set_variables_refl : Reflexive keeps_set_variables.
Proof. by intros g name. Qed.

#[global] Instance keeps_set_variables_trans : Transitive keeps_set_variables.
Proof.
  intros g1 g2 g3 H1 H2 name Hn.
  rewrite H2; [by apply H1|]. by rewrite H1.
Qed.

Lemma setenv_no_overwrite name value :
  respects keeps_set_variables (setenv name value 0).
Proof.
  intros g x Hx. unfold setenv.
  destruct (_ || _); simpl; [done|].
  destruct (bool_decide (is_Some (environ g !! name))) eqn:Hset; simpl; [done|].
  destruct (heap_exhausted g); simpl; [done|].
  apply bool_decide_eq_false in Hset.
  rewrite lookup_insert_ne; [done|]. by intros ->.
Qed.


Lemma defineEnvVar_found buf off lineno filename g k :
  strchr (advance off buf) "=" = Some k ->
  exists g',
    defineEnvVar X buf off lineno filename g = Done buf g'
    /\ keeps_set_variables g g'
    /\ visible g' = visible g.
Proof.
  intros Hk. unfold defineEnvVar. rewrite Hk.
  set (b1 := poke buf (off + k) NUL).
  pose proof (setenv_no_overwrite (cstr (advance off b1))
                (cstr (advance (S (off + k)) b1)) g) as Henv.
  assert (visible (state_of (setenv (cstr (advance off b1))
             (cstr (advance (S (off + k)) b1)) 0 g)) = visible g) as Hvis.
  { unfold setenv. repeat case_match; done. }
  unfold bind at 1.
  destruct (setenv _ _ 0 g) as [rc g1|h g1] eqn:Hs.
  2:{ destruct (setenv_returns (cstr (advance off b1))
                 (cstr (advance (S (off + k)) b1)) 0%Z g) as (?&?&?).
      congruence. }
  simpl in Henv, Hvis. unfold b1. rewrite (strchr_advance_poke _ _ _ _ Hk).
  destruct (rc =? 0)%Z; simpl; eexists; (split; [reflexivity|]); by split.
Qed.

Lemma defineEnvVar_not_found buf off lineno filename g :
  strchr (advance off buf) "=" = None ->
  defineEnvVar X buf off lineno filename g =
  Halted (chpl_error_halt defineEnvVar_syntax_error lineno filename) g.
Proof. intros Hk. unfold defineEnvVar. by rewrite Hk. Qed.


(** *** What the loop body returns *)

Lemma returns_ret {A} (a : A) (P : A -> Prop) : P a -> returns (ret a) P.
Proof. intros H g a' g' [= <- _]. done. Qed.

Lemma returns_any {A} (m : M World A) : returns m (fun _ => True).
Proof. done. Qed.

Lemma returns_chpl_error {A} msg lineno filename (P : A -> Prop) :
  returns (chpl_error msg lineno filename) P.
Proof. intros g a g' [=]. Qed.

Lemma returns_bind {A B} (m : M World A) (k : A -> M World B) Q P :
  returns m Q -> (forall a, Q a -> returns (k a) P) -> returns (bind m k) P.
Proof.
  intros Hm Hk g b g'. unfold bind.
  destruct (m g) as [a g1|h g1] eqn:E; [|done].
  apply (Hk a); eauto.
Qed.

Lemma returns_defineEnvVar buf off lineno filename :
  returns (defineEnvVar X buf off lineno filename) (fun b => b = buf).
Proof.
  intros g a g' H.
  destruct (strchr (advance off buf) "=") as [k|] eqn:Hk.
  - destruct (defineEnvVar_found buf off lineno filename g k Hk) as (g1 & E & _).
    congruence.
  - rewrite (defineEnvVar_not_found _ _ _ _ _ Hk) in H. done.
Qed.

Lemma list_insert_nth_id {A} (l : list A) (n : nat) (d : A) :
  <[n := nth n l d]> l = l.
Proof.
  destruct (nth_lookup_or_length l n d) as [Hn|Hge].
  - by apply list_insert_id.
  - apply list_insert_ge. lia.
Qed.

Ltac returns_walk :=
  repeat first
    [ apply returns_chpl_error
    | apply returns_ret
    | eapply returns_bind;
        [apply returns_defineEnvVar | intros ? ->]
    | eapply returns_bind; [apply returns_any | intros ? _]
    | match goal with
      | |- returns (if ?b then _ else _) _ => destruct b eqn:?
      | |- returns (when ?b _) _ => apply returns_any
      end ].

Lemma parseArg_advances origargc lv :
  returns (parseArg X origargc lv) (advances lv).
Proof.
  unfold parseArg, parseSwitch, parseLongFlag, parseEnvFlag, parseFileFlag,
    parseNumLocalesFlag, nonstandard, possible_config_var.
  returns_walk; unfold advances; simpl;
    rewrite ?list_insert_nth_id; split; (done || lia).
Qed.


(** *** Frames for the loop *)

Lemma respects_bind_returns R `{!Transitive R} {A B} (m : M World A)
    (k : A -> M World B) (Q : A -> Prop) :
  respects R m -> returns m Q -> (forall a, Q a -> respects R (k a)) ->
  respects R (bind m k).
Proof.
  intros Hm Hq Hk g. unfold bind. specialize (Hm g).
  destruct (m g) as [a g'|h g'] eqn:E; simpl in *; [|done].
  etransitivity; [exact Hm|]. apply Hk. eauto.
Qed.

Lemma bare_flag_cstr cur c :
  (strlen cur <? 2)%nat = false ->
  Ascii.eqb (char_at cur 0) "-" = true ->
  Ascii.eqb (char_at cur 1) c = true ->
  Ascii.eqb (char_at cur 2) NUL = true ->
  cstr cur = String "-" (String c "").
Proof.
  intros Hlen H0 H1 H2.
  apply Nat.ltb_ge in Hlen. apply Ascii.eqb_eq in H0, H1, H2.
  rewrite (cstr_two _ Hlen), H0, H1.
  by rewrite (cstr_advance_nul _ 2 Hlen H2).
Qed.

Lemma long_flag_cstr cur name :
  (strlen cur <? 2)%nat = false ->
  Ascii.eqb (char_at cur 0) "-" = true ->
  Ascii.eqb (char_at cur 1) "-" = true ->
  streq (advance 2 cur) name = true ->
  cstr cur = String "-" (String "-" (cstr name)).
Proof.
  intros Hlen H0 H1 H2.
  apply Nat.ltb_ge in Hlen. apply Ascii.eqb_eq in H0, H1.
  apply streq_eq in H2.
  by rewrite (cstr_two _ Hlen), H0, H1, H2.
Qed.

Lemma parseArg_respects R `{!Reflexive R} `{!Transitive R} origargc lv :
  externals_respect R X ->
  leaves R (nth (i lv) (argv lv) "") ->
  respects R (parseArg X origargc lv).
Proof.
  intros HX HL. unfold parseArg. cbv zeta.
  set (cur := nth (i lv) (argv lv) "") in *.
  destruct (mainHasArgs X && (stop_parsing lv || (strlen cur <? 2)%nat)).
  { frame_walk. apply respects_modify. intros g. apply HL. }
  destruct (mainHasArgs X && streq cur "--"); [frame_walk|].
  destruct (strlen cur <? 2)%nat eqn:Hlen.
  { intros g. simpl. reflexivity. }
  apply respects_bind. 1: tc_solve. 1: frame_walk. intros _.
  unfold parseSwitch, parseLongFlag, parseEnvFlag, parseFileFlag,
    parseNumLocalesFlag, nonstandard, possible_config_var.
  cbv zeta.
  frame_walk;
    try (apply respects_modify; intros g);
    try (by apply HL).
  - apply HL. right. by apply (long_flag_cstr cur "blockreport").
  - apply HL. right. by apply (long_flag_cstr cur "taskreport").
  - apply HL. left. by apply bare_flag_cstr.
  - apply HL. left. by apply bare_flag_cstr.
Qed.

Lemma parseArgs_loop_respects R `{!Reflexive R} `{!Transitive R}
    origargc n lv :
  externals_respect R X ->
  (forall j a, (i lv <= j)%nat -> argv lv !! j = Some a -> leaves R a) ->
  respects R (parseArgs_loop X origargc n lv).
Proof.
  intros HX. revert lv. induction n as [|n IH]; intros lv HL; simpl.
  { by apply respects_ret. }
  destruct (i lv <? length (argv lv))%nat eqn:Hi; [|by apply respects_ret].
  apply Nat.ltb_lt in Hi.
  apply (respects_bind_returns R _ _ (advances lv)).
  - apply parseArg_respects; [tc_solve|tc_solve|done|].
    rewrite nth_lookup.
    destruct (argv lv !! i lv) as [a|] eqn:Ha.
    + simpl. by apply (HL (i lv)).
    + apply lookup_ge_None in Ha. lia.
  - apply parseArg_advances.
  - intros lv' [Hargv Hi']. apply IH. simpl. rewrite Hargv.
    intros j a Hj. apply HL. lia.
Qed.

Lemma print_flags_respects R `{!Reflexive R} `{!Transitive R} w l last :
  (forall s g, R g (set_stdout (stdout g ++ [s]) g)) ->
  respects R (print_flags w l last).
Proof.
  intros Hout. revert last. induction l as [|f l IH]; intros last; simpl.
  { by apply respects_ret. }
  unfold printHeaders, fprintf_stdout.
  frame_walk; try (apply respects_modify; intros g; apply Hout); apply IH.
Qed.

Lemma printHelpTable_respects R `{!Reflexive R} `{!Transitive R} :
  respects R (printAdditionalHelp X) ->
  (forall s g, R g (set_stdout (stdout g ++ [s]) g)) ->
  respects R (printHelpTable X).
Proof.
  intros HX Hout. unfold printHelpTable, fprintf_stdout.
  frame_walk.
  - by apply print_flags_respects.
  - apply respects_modify. intros g. apply Hout.
Qed.

Lemma parseArgs_finish_respects R `{!Reflexive R} `{!Transitive R} lv :
  externals_respect R X ->
  (forall s g, R g (set_stdout (stdout g ++ [s]) g)) ->
  respects R (parseArgs_finish X lv).
Proof.
  intros HX Hout. unfold parseArgs_finish.
  frame_walk. apply printHelpTable_respects; [tc_solve|tc_solve| |done].
  apply HX.
Qed.

Lemma parseArgs_respects R `{!Reflexive R} `{!Transitive R} argv0 :
  externals_respect R X ->
  (forall a, a ∈ drop 1 argv0 -> leaves R a) ->
  (forall s g, R g (set_stdout (stdout g ++ [s]) g)) ->
  respects R (parseArgs X argv0).
Proof.
  intros HX HL Hout. unfold parseArgs.
  frame_walk.
  - apply parseArgs_loop_respects; [tc_solve|tc_solve|done|]. simpl.
    intros j a Hj Ha. apply HL. apply list_elem_of_lookup.
    exists (j - 1)%nat. rewrite lookup_drop.
    by replace (1 + (j - 1))%nat with j by lia.
  - by apply parseArgs_finish_respects.
Qed.

(** *** Relations used for the claims *)

Lemma respects_weaken R R' {A} (m : M World A) :
  (forall g g', R g g' -> R' g g') -> respects R m -> respects R' m.
Proof. intros H Hm g. apply H, Hm. Qed.

Lemma externals_respect_weaken R R' :
  (forall g g', R g g' -> R' g g') ->
  externals_respect R X -> externals_respect R' X.
Proof.
  intros H [H1 H2 H3 H4 H5 H6 H7].
  split; intros; eapply respects_weaken; eauto.
Qed.

Lemma defineEnvVar_keeps_visible buf off lineno filename :
  respects (keeps visible) (defineEnvVar X buf off lineno filename).
Proof.
  intros g. unfold keeps.
  destruct (strchr (advance off buf) "=") as [k|] eqn:Hk.
  - destruct (defineEnvVar_found buf off lineno filename g k Hk)
      as (g' & -> & _ & Hv). done.
  - by rewrite (defineEnvVar_not_found _ _ _ _ _ Hk).
Qed.

Lemma defineEnvVar_keeps_set_variables buf off lineno filename :
  respects keeps_set_variables (defineEnvVar X buf off lineno filename).
Proof.
  intros g.
  destruct (strchr (advance off buf) "=") as [k|] eqn:Hk.
  - destruct (defineEnvVar_found buf off lineno filename g k Hk)
      as (g' & -> & He & _). done.
  - by rewrite (defineEnvVar_not_found _ _ _ _ _ Hk).
Qed.

#[global] Instance sets_to_one_refl (f : globals World -> Z) P :
  Reflexive (sets_to_one f P).
Proof. intros g. by left. Qed.

#[global] Instance sets_to_one_trans (f : globals World -> Z) P :
  Transitive (sets_to_one f P).
Proof.
  intros g1 g2 g3 [H1|H1] [H2|H2]; unfold sets_to_one.
  - left. congruence.
  - by right.
  - right. destruct H1. split; [congruence|done].
  - by right.
Qed.

Lemma leaves_keeps_set_variables a : leaves keeps_set_variables a.
Proof.
  split; try done. intros. apply defineEnvVar_keeps_set_variables.
Qed.



(** *** Getting to an iteration *)

Lemma arrives_loop origargc lv g lv' g' :
  arrives X origargc lv g lv' g' ->
  forall n, (length (argv lv) <= i lv + n)%nat ->
  exists n', (length (argv lv') <= i lv' + n')%nat /\
    parseArgs_loop X origargc n lv g = parseArgs_loop X origargc n' lv' g'.
Proof.
  induction 1 as [lv g|lv g lv1 g1 lv' g' Hi Hstep _ IH]; intros n Hn.
  { eauto. }
  destruct n as [|n]; [lia|].
  destruct (parseArg_advances origargc lv g lv1 g1 Hstep) as [Hargv Hi1].
  destruct (IH n) as (n' & Hn' & E).
  { simpl. rewrite Hargv. lia. }
  exists n'. split; [done|].
  simpl. apply Nat.ltb_lt in Hi. rewrite Hi.
  unfold bind at 1. by rewrite Hstep.
Qed.

Lemma dispatch_conditions lv cur :
  dispatches X lv ->
  (strlen cur <? 2)%nat = false ->
  cstr cur <> "--" ->
  mainHasArgs X && (stop_parsing lv || (strlen cur <? 2)%nat) = false
  /\ mainHasArgs X && streq cur "--" = false.
Proof.
  unfold dispatches. intros Hd -> Hne.
  assert (streq cur "--" = false) as -> by (by apply streq_neq).
  destruct (mainHasArgs X), (stop_parsing lv); done.
Qed.

(** Evaluates the loop body on an argument [cur] whose C string is
    known. *)
Ltac eval_flag cur Hc :=
  unfold parseSwitch, parseLongFlag, streq;
  rewrite ?(char_at_cstr cur 0), ?(char_at_cstr cur 1), ?(char_at_cstr cur 2),
    ?(cstr_advance cur 2) by (unfold strlen; rewrite Hc; simpl; lia);
  rewrite Hc; reflexivity.




Lemma parseArgs_loop_argv origargc n lv :
  returns (parseArgs_loop X origargc n lv) (fun lv' => argv lv' = argv lv).
Proof.
  revert lv. induction n as [|n IH]; intros lv; simpl.
  { by apply returns_ret. }
  destruct (i lv <? length (argv lv))%nat; [|by apply returns_ret].
  eapply returns_bind; [apply parseArg_advances|].
  intros lv1 [Hargv _] g lv2 g2 H.
  apply IH in H. simpl in H. congruence.
Qed.

Lemma parseArgs_argv argv0 :
  returns (parseArgs X argv0) (fun argv1 => argv1 = argv0).
Proof.
  unfold parseArgs.
  eapply returns_bind; [apply parseArgs_loop_argv|].
  intros lv Hlv. simpl in Hlv.
  eapply returns_bind; [apply returns_any|]. intros _ _.
  by apply returns_ret.
Qed.




Lemma parseArg_help origargc lv g f :
  dispatches X lv ->
  f = "-h" \/ f = "--help" ->
  cstr (nth (i lv) (argv lv) "") = f ->
  parseArg X origargc lv g = Done (set_printHelp true lv) (push_flag f g).
Proof.
  intros Hd Hf Hc. unfold parseArg. cbv zeta.
  set (cur := nth (i lv) (argv lv) "") in *.
  assert ((strlen cur <? 2)%nat = false) as Hlen.
  { unfold strlen. rewrite Hc. by destruct Hf as [-> | ->]. }
  destruct (dispatch_conditions lv cur Hd Hlen) as [-> ->].
  { rewrite Hc. by destruct Hf as [-> | ->]. }
  rewrite Hlen. clearbody cur.
  change (parseSwitch X lv cur (strlen cur)
            (Z.of_nat (i lv) +
             (Z.of_nat origargc - Z.of_nat (length (argv lv))))
            (Some "<command-line arg>") g =
          Done (set_printHelp true lv) (push_flag f g)).
  destruct Hf as [-> | ->]; eval_flag cur Hc.
Qed.

Lemma parseArg_pass_through origargc lv g :
  mainHasArgs X = true -> stop_parsing lv = true ->
  parseArg X origargc lv g =
  Done lv (push_flag (nth (i lv) (argv lv) "") g).
Proof. intros Hm Hs. unfold parseArg. by rewrite Hm, Hs. Qed.


Lemma parseArgs_help_only prog f g :
  f = "-h" \/ f = "--help" ->
  parseArgs X [prog; f] g =
  (parseArgs_finish X (set_i 2 (set_printHelp true (parseArgs_start [prog; f])))
   ;; ret [prog; f]) (push_flag f g).
Proof.
  intros Hf. unfold parseArgs. simpl length. simpl parseArgs_loop.
  unfold bind at 1. unfold bind at 1.
  rewrite (parseArg_help 2 _ g f); [done| |done|].
  - unfold dispatches. simpl. apply andb_false_r.
  - by destruct Hf as [-> | ->].
Qed.


Lemma bind_Done {A B} (m : M World A) (k : A -> M World B) g a g' :
  m g = Done a g' -> bind m k g = k a g'.
Proof. intros H. unfold bind. by rewrite H. Qed.


End WithExternals.

(** *** The stand-in externals *)

Lemma plain_externals_respect (R : relation (globals unit)) `{!Reflexive R}
    mha :
  externals_respect R (plain_externals mha).
Proof. split; intros; intros g; simpl; reflexivity. Qed.

(* ===================================================================== *)
(** ** Startup arguments: the claims *)
(* ===================================================================== *)


(** Within [arg.c] only [parseArgs] assigns [verbosity], [blockreport]
    or [taskreport]: any sequence of calls to its other entry points
    leaves the three counters as they were (the help printer of the
    communication layer, which [printHelpTable] calls, is assumed not
    to assign them).  What the rest of the runtime does with them is
    not decided here. *)
Lemma counters_kept_by_other_entry_points {World} (X : externals World)
    (os : list arg_operation) (g : globals World) :
  respects (keeps counters) (printAdditionalHelp X) ->
  counters (state_of (perform_all X os g)) = counters g.
Proof.
  intros HX. revert g.
  change (respects (keeps counters) (perform_all X os)).
  induction os as [|o os IH]; simpl.
  { apply respects_ret. tc_solve. }
  apply respects_bind; [tc_solve| |intros _; exact IH].
  destruct o; simpl;
    unfold _runInGDB, getArgNumLocales, chpl_specify_locales_error,
      parseNumLocales.
  - frame_walk.
  - apply printHelpTable_respects; [tc_solve|tc_solve|done|done].
  - frame_walk. by apply respects_modify.
  - frame_walk.
  - frame_walk.
Qed.

(** C8 (as stated) does not hold: a rejected value is stored all the
    same.  ["-5"] is a well-formed number below 1; [parseNumLocales]
    stops the process, and [_argNumLocales], 0 before, is -5 by then. *)
Lemma parseNumLocales_stores_rejected_value :
  ~ (forall (X : externals unit) numPtr lineno filename (g : globals unit),
       (c_string_to_int32_t_precise X numPtr).1.2 = true \/
       ((c_string_to_int32_t_precise X numPtr).1.1 < 1)%Z ->
       _argNumLocales (state_of (parseNumLocales X numPtr lineno filename g))
       = _argNumLocales g).
Proof.
  intros H.
  specialize (H (plain_externals false) "-5" 0%Z None fresh_globals).
  vm_compute in H. specialize (H (or_intror eq_refl)). discriminate.
Qed.

(** C8 (amended): [parseNumLocales] first stores the converted value,
    whatever it is, and then checks it: an ill-formed string stops the
    process with "... is not a valid number of locales", a value below
    1 with "Number of locales must be greater than 0", both with the
    value already stored; otherwise the call returns.
    [getArgNumLocales] returns the stored value and changes nothing,
    which is 0 as long as [parseNumLocales] has not run. *)
Theorem parseNumLocales_stores_then_checks {World} (X : externals World)
    (numPtr : string) (lineno : Z) (filename : option string)
    (g : globals World) :
  let val := (c_string_to_int32_t_precise X numPtr).1.1 in
  let invalid := (c_string_to_int32_t_precise X numPtr).1.2 in
  let g' := set__argNumLocales val g in
  parseNumLocales X numPtr lineno filename g =
    (if invalid then
       Halted (chpl_error_halt
                 (cstr (chpl_glom_strings3 dquote numPtr
                          (dquote +:+ " is not a valid number of locales")))
                 lineno filename) g'
     else if (val <? 1)%Z then
       Halted (chpl_error_halt "Number of locales must be greater than 0"
                 lineno filename) g'
     else Done tt g')
  /\ getArgNumLocales g' = Done val g'
  /\ (forall verb main_arg env oom (w : World),
        getArgNumLocales (initial_globals verb main_arg env oom w) =
        Done 0%Z (initial_globals verb main_arg env oom w)).
Proof.
  intros val invalid g'. subst val invalid g'.
  unfold parseNumLocales.
  destruct (c_string_to_int32_t_precise X numPtr) as [[val invalid] ch].
  simpl. split; [|split].
  - destruct invalid; [done|]. unfold bind. simpl.
    by destruct (val <? 1)%Z.
  - unfold getArgNumLocales, bind, gets, ret. simpl.
    destruct (val =? 0)%Z eqn:E; simpl; [|done].
    apply Z.eqb_eq in E. by subst.
  - done.
Qed.

(** C9: [defineEnvVar] never overwrites a variable that is set, hands
    the array back as it got it, and keeps a failure of [setenv] to
    itself.  With an ['='] in the argument it always returns; every
    variable that was set has its old value, the array is the original
    one again, and nothing else that can be observed has changed; when
    [setenv] fails, the only trace is the message in the function's
    own static buffer.  Without an ['='] the process stops with the
    syntax error, nothing touched.  For [parseArgs] as a whole: it
    returns [argv] as it was, and if the config layer does not
    overwrite variables, no variable that was set has changed. *)
Theorem defineEnvVar_keeps_environment_and_argv {World}
    (X : externals World) :
  (forall buf off lineno filename g,
     match strchr (advance off buf) "=" with
     | Some k =>
         let b1 := poke buf (off + k) NUL in
         let name := cstr (advance off b1) in
         let value := cstr (advance (S (off + k)) b1) in
         exists g',
           defineEnvVar X buf off lineno filename g = Done buf g'
           /\ (forall n, is_Some (environ g !! n) ->
                         environ g' !! n = environ g !! n)
           /\ visible g' = visible g
           /\ (forall rc g1, setenv name value 0 g = Done rc g1 ->
                 rc <> 0%Z -> exists msg, g' = set_errmsg msg g1)
     | None =>
         defineEnvVar X buf off lineno filename g =
         Halted (chpl_error_halt defineEnvVar_syntax_error lineno filename) g
     end)
  /\ (forall argv0 g argv1 g',
        parseArgs X argv0 g = Done argv1 g' -> argv1 = argv0)
  /\ (externals_respect keeps_set_variables X ->
      forall argv0 g n,
        is_Some (environ g !! n) ->
        environ (state_of (parseArgs X argv0 g)) !! n = environ g !! n).
Proof.
  split; [|split].
  - intros buf off lineno filename g.
    destruct (strchr (advance off buf) "=") as [k|] eqn:Hk.
    + destruct (defineEnvVar_found X buf off lineno filename g k Hk)
        as (g' & E & He & Hv).
      exists g'. repeat split; try done.
      intros rc g1 Hs Hrc. revert E. unfold defineEnvVar. rewrite Hk.
      unfold bind at 1. rewrite Hs.
      apply Z.eqb_neq in Hrc. rewrite Hrc. simpl.
      intros [= _ <-]. eauto.
    + by apply defineEnvVar_not_found.
  - intros argv0 g argv1 g' H. by apply (parseArgs_argv X argv0) in H.
  - intros HX argv0 g.
    apply (parseArgs_respects X keeps_set_variables argv0 HX); [|done].
    intros a _. apply leaves_keeps_set_variables.
Qed.

Lemma defineEnvVar_keeps_environment_and_argv_witness :
  environ (state_of (parseArgs (plain_externals false)
                       ["prog"; "-EHOME=/tmp"; "-E"; "=x"]
                       (set_environ {["HOME" := "/root"]} fresh_globals)))
    !! "HOME" = Some "/root".
Proof.
  pose proof (defineEnvVar_keeps_environment_and_argv (plain_externals false))
    as (_ & _ & H).
  rewrite H.
  - reflexivity.
  - apply plain_externals_respect. tc_solve.
  - eexists. reflexivity.
Defined.


End ArgFacts.

(* ===================================================================== *)
(** ** Facts about the Structured Task Group *)
(* ===================================================================== *)

Module RuntimeFacts.
Import Runtime.
Local Open Scope list_scope.

(** *** Lists of child states *)

Lemma terminated_app l1 l2 :
  terminated (l1 ++ l2) = (terminated l1 + terminated l2)%nat.
Proof. induction l1 as [|s l1 IH]; simpl; [done|]. rewrite IH. lia. Qed.

Lemma terminated_le l : (terminated l <= length l)%nat.
Proof.
  induction l as [|s l IH]; simpl; [done|]. destruct (is_terminal s); lia.
Qed.

Lemma terminated_all l :
  terminated l = length l -> Forall (fun s => is_terminal s = true) l.
Proof.
  induction l as [|s l IH]; simpl; [constructor|].
  pose proof (terminated_le l) as Hle.
  destruct (is_terminal s) eqn:E; intros H; [|lia].
  constructor; [done|]. apply IH. lia.
Qed.

Lemma all_terminated l :
  Forall (fun s => is_terminal s = true) l -> terminated l = length l.
Proof. induction 1 as [|s l Hs _ IH]; simpl; [done|]. rewrite Hs, IH. lia. Qed.

Lemma terminated_insert l t s s' :
  l !! t = Some s ->
  (terminated (<[t := s']> l) + (if is_terminal s then 1 else 0) =
   terminated l + (if is_terminal s' then 1 else 0))%nat.
Proof.
  revert t. induction l as [|x l IH]; intros [|t]; simpl; try done.
  - intros [= ->]. lia.
  - intros H. specialize (IH t H). lia.
Qed.

Lemma failed_insert (l : list task_state) t s s' :
  l !! t = Some s -> failure s = None ->
  omap failure (<[t := s']> l)
  ≡ₚ omap failure l ++ match failure s' with Some e => [e] | None => [] end.
Proof.
  revert t. induction l as [|x l IH]; intros [|t]; simpl; try done.
  - intros [= ->] Hs. rewrite Hs.
    destruct (failure s'); simpl; [|by rewrite app_nil_r].
    apply Permutation_cons_append.
  - intros H Hs. specialize (IH t H Hs).
    destruct (failure x); simpl; by rewrite IH.
Qed.

(** *** The accounting is kept *)

Lemma recorded_raise_or_return g es :
  parent g = ParentResumed (raise_or_return es) -> recorded g = es.
Proof. unfold recorded. intros ->. by destruct es. Qed.

Lemma consistent_open expected_count : consistent (open expected_count).
Proof. destruct expected_count; repeat split; done. Qed.

Lemma not_destroyed g :
  destroyed g = false -> forall r, parent g <> ParentResumed r.
Proof. unfold destroyed. by destruct (parent g). Qed.

Lemma live_recorded g :
  (forall r, parent g <> ParentResumed r) -> recorded g = errors g.
Proof.
  unfold recorded. intros Hp. destruct (parent g) as [| |r]; try done.
  by destruct (Hp r).
Qed.

Lemma consistent_live g :
  (forall r, parent g <> ParentResumed r) ->
  completed g = terminated (children g) ->
  (unbounded g = true -> expected g = length (children g)) ->
  errors g ≡ₚ failed_errors g ->
  (parent g = ParentSuspended -> completed g <> expected g) ->
  consistent g.
Proof.
  intros Hp Hc Hu He Hs. split; [done|]. split; [done|]. split; [|split].
  - by rewrite (live_recorded g Hp).
  - done.
  - intros r Hr. by destruct (Hp r).
Qed.

(** What [release] does, case by case. *)
Lemma release_cases g g' :
  release g = Next g' ->
  (g' = g /\ (parent g = ParentSuspended -> completed g <> expected g))
  \/ (parent g = ParentSuspended /\ completed g = expected g /\
      Forall (fun s => is_terminal s = true) (children g) /\
      g' = mkGroup (unbounded g) (expected g) (completed g) (children g) []
                   (ParentResumed (raise_or_return (errors g)))).
Proof.
  unfold release. destruct (parent g) as [| |r] eqn:Ep.
  - intros [= <-]. by left.
  - destruct (completed g =? expected g)%nat eqn:E.
    + apply Nat.eqb_eq in E.
      destruct (forallb is_terminal (children g)) eqn:Ht; [|done].
      simpl. intros [= <-]. right. repeat split; try done.
      apply Forall_forall. intros s Hs.
      rewrite forallb_forall in Ht. apply Ht. by apply list_elem_of_In.
    + apply Nat.eqb_neq in E. intros [= <-]. by left.
  - intros [= <-]. by left.
Qed.

Lemma release_consistent g g' :
  (forall r, parent g <> ParentResumed r) ->
  completed g = terminated (children g) ->
  (unbounded g = true -> expected g = length (children g)) ->
  errors g ≡ₚ failed_errors g ->
  release g = Next g' ->
  consistent g'.
Proof.
  intros Hp Hc Hu He Hrel.
  destruct (release_cases g g' Hrel) as [[-> Hs]|(Ep & E & Ht & ->)].
  - by apply consistent_live.
  - assert (recorded (mkGroup (unbounded g) (expected g) (completed g)
              (children g) [] (ParentResumed (raise_or_return (errors g))))
            = errors g) as Hr by (by apply recorded_raise_or_return).
    split; [done|]. split; [done|]. split; [by rewrite Hr|]. split; [done|].
    intros r [= <-]. by rewrite Hr.
Qed.

Lemma transition_consistent from to t g g' :
  is_terminal from = false -> is_terminal to = false ->
  consistent g -> transition from to t g = Next g' -> consistent g'.
Proof.
  intros Hf Ht (Hc & Hu & He & Hsusp & Hp). unfold transition.
  destruct (destroyed g) eqn:Hd; [done|].
  destruct (children g !! t) as [s|] eqn:Hs; [|done].
  case_bool_decide as Hfrom; [|done]. subst s. intros [= <-].
  pose proof (terminated_insert _ _ _ to Hs) as Hterm.
  rewrite Hf, Ht in Hterm.
  assert (failure from = None) as Hff by (by destruct from).
  assert (failure to = None) as Hft by (by destruct to).
  pose proof (failed_insert _ _ _ to Hs Hff) as Hfail.
  rewrite Hft, app_nil_r in Hfail.
  rewrite (live_recorded g (not_destroyed g Hd)) in He.
  rewrite !Nat.add_0_r in Hterm.
  apply consistent_live; simpl.
  - apply (not_destroyed g Hd).
  - rewrite Hc. symmetry. exact Hterm.
  - by rewrite length_insert.
  - unfold failed_errors in *. simpl. etransitivity; [exact He|].
    symmetry. exact Hfail.
  - done.
Qed.

Lemma step_consistent e g g' :
  consistent g -> step e g = Next g' -> consistent g'.
Proof.
  intros Hg. destruct e as [|t|t|t|t o|]; simpl.
  - (* register_child *)
    destruct Hg as (Hc & Hu & He & Hsusp & Hp). unfold register_child.
    destruct (destroyed g) eqn:Hd; [done|]. intros [= <-].
    rewrite (live_recorded g (not_destroyed g Hd)) in He.
    pose proof (terminated_le (children g)) as Hle.
    apply consistent_live; simpl.
    + apply (not_destroyed g Hd).
    + rewrite terminated_app. simpl. lia.
    + intros Hub. rewrite Hub, length_app. simpl. rewrite Hu; [lia|done].
    + unfold failed_errors in *. simpl.
      rewrite omap_app. simpl. by rewrite app_nil_r.
    + intros Hpar. specialize (Hsusp Hpar).
      destruct (unbounded g) eqn:Hub; [|done].
      specialize (Hu eq_refl). lia.
  - by apply transition_consistent.
  - by apply transition_consistent.
  - by apply transition_consistent.
  - (* on_child_terminal *)
    destruct Hg as (Hc & Hu & He & Hsusp & Hp). unfold on_child_terminal.
    destruct (destroyed g) eqn:Hd; [done|].
    destruct (children g !! t) as [[]|] eqn:Hs; try done.
    intros Hrel.
    pose proof (terminated_insert _ _ _ (terminal_state o) Hs) as Hterm.
    pose proof (failed_insert _ _ _ (terminal_state o) Hs eq_refl) as Hfail.
    rewrite (live_recorded g (not_destroyed g Hd)) in He.
    eapply release_consistent; [| | | |exact Hrel]; simpl.
    + apply (not_destroyed g Hd).
    + assert (terminated (<[t:=terminal_state o]> (children g))
              = S (terminated (children g))) as Hterm'.
      { unfold task_id in *.
        destruct o; cbn [is_terminal terminal_state] in Hterm |- *; lia. }
      rewrite Hc. symmetry. exact Hterm'.
    + by rewrite length_insert.
    + unfold failed_errors in *. simpl.
      etransitivity; [|symmetry; exact Hfail].
      destruct o; simpl; [by rewrite app_nil_r|].
      unfold record. by apply Permutation_app_tail.
  - (* join *)
    destruct Hg as (Hc & Hu & He & Hsusp & Hp). unfold join.
    destruct (parent g) eqn:Ep; try done. intros Hrel.
    eapply release_consistent; [| | | |exact Hrel]; simpl; try done.
    unfold recorded in He. by rewrite Ep in He.
Qed.

Lemma run_consistent tr g g' :
  consistent g -> run tr g = Next g' -> consistent g'.
Proof.
  revert g. induction tr as [|e tr IH]; intros g Hg; simpl.
  { by intros [= <-]. }
  destruct (step e g) as [g1|] eqn:E; [|done].
  apply IH. by eapply step_consistent.
Qed.

Lemma run_app tr1 tr2 g :
  run (tr1 ++ tr2) g =
  match run tr1 g with
  | Next g1 => run tr2 g1
  | FatalRuntimeError => FatalRuntimeError
  end.
Proof.
  revert g. induction tr1 as [|e tr1 IH]; intros g; simpl; [done|].
  destruct (step e g); [apply IH|done].
Qed.

(** *** What a step can and cannot do *)

Lemma step_destroyed e g : destroyed g = true -> step e g = FatalRuntimeError.
Proof.
  unfold destroyed. intros Hd.
  destruct e; simpl;
    unfold register_child, transition, on_child_terminal, join, destroyed;
    destruct (parent g); done.
Qed.

Lemma run_destroyed tr g g' :
  destroyed g = true -> run tr g = Next g' -> tr = [] /\ g' = g.
Proof.
  intros Hd. destruct tr as [|e tr]; simpl.
  - by intros [= <-].
  - by rewrite (step_destroyed e g Hd).
Qed.

Lemma release_fields g g' :
  release g = Next g' ->
  unbounded g' = unbounded g /\ expected g' = expected g
  /\ children g' = children g /\ completed g' = completed g.
Proof.
  intros H. by destruct (release_cases g g' H) as [[-> _]|(_ & _ & _ & ->)].
Qed.

Lemma step_grows e g g' :
  step e g = Next g' ->
  (length (children g) <= length (children g'))%nat
  /\ unbounded g' = unbounded g
  /\ (unbounded g = false -> expected g' = expected g).
Proof.
  destruct e as [|t|t|t|t o|]; simpl;
    unfold register_child, transition, on_child_terminal, join.
  - destruct (destroyed g); [done|]. intros [= <-]. simpl.
    rewrite length_app. simpl. split; [lia|]. split; [done|]. by intros ->.
  - destruct (destroyed g); [done|]. destruct (children g !! t); [|done].
    case_bool_decide; [|done]. intros [= <-]. simpl.
    by rewrite length_insert.
  - destruct (destroyed g); [done|]. destruct (children g !! t); [|done].
    case_bool_decide; [|done]. intros [= <-]. simpl.
    by rewrite length_insert.
  - destruct (destroyed g); [done|]. destruct (children g !! t); [|done].
    case_bool_decide; [|done]. intros [= <-]. simpl.
    by rewrite length_insert.
  - destruct (destroyed g); [done|].
    destruct (children g !! t) as [[]|]; try done. intros Hrel.
    destruct (release_fields _ _ Hrel) as (-> & -> & -> & _). simpl.
    by rewrite length_insert.
  - destruct (parent g); try done. intros Hrel.
    destruct (release_fields _ _ Hrel) as (-> & -> & -> & _). done.
Qed.

Lemma run_grows tr g g' :
  run tr g = Next g' ->
  (length (children g) <= length (children g'))%nat
  /\ unbounded g' = unbounded g
  /\ (unbounded g = false -> expected g' = expected g).
Proof.
  revert g. induction tr as [|e tr IH]; intros g; simpl.
  { by intros [= <-]. }
  destruct (step e g) as [g1|] eqn:E; [|done]. intros H.
  destruct (step_grows _ _ _ E) as (H1 & H2 & H3).
  destruct (IH _ H) as (H4 & H5 & H6).
  split; [lia|]. split; [congruence|].
  intros Hu. rewrite H6; [by apply H3|congruence].
Qed.

Lemma run_open_consistent expected_count tr g :
  run tr (open expected_count) = Next g -> consistent g.
Proof. apply run_consistent, consistent_open. Qed.

(** *** The recorded errors are the reported ones *)

Lemma recorded_release g g' :
  (forall r, parent g <> ParentResumed r) ->
  release g = Next g' -> recorded g' = errors g.
Proof.
  intros Hp Hrel.
  destruct (release_cases g g' Hrel) as [[-> _]|(_ & _ & _ & ->)].
  - by apply live_recorded.
  - by apply recorded_raise_or_return.
Qed.

Lemma step_recorded e g g' :
  step e g = Next g' ->
  recorded g' = recorded g ++ match reported_failure e with
                              | Some err => [err]
                              | None => []
                              end.
Proof.
  destruct (destroyed g) eqn:Hd; [by rewrite (step_destroyed e g Hd)|].
  pose proof (not_destroyed g Hd) as Hlive.
  rewrite (live_recorded g Hlive).
  destruct e as [|t|t|t|t o|]; simpl;
    unfold register_child, transition, on_child_terminal, join;
    rewrite ?Hd.
  - intros [= <-]. rewrite app_nil_r, live_recorded; [done|exact Hlive].
  - destruct (children g !! t); [|done]. case_bool_decide; [|done].
    intros [= <-]. rewrite app_nil_r, live_recorded; [done|exact Hlive].
  - destruct (children g !! t); [|done]. case_bool_decide; [|done].
    intros [= <-]. rewrite app_nil_r, live_recorded; [done|exact Hlive].
  - destruct (children g !! t); [|done]. case_bool_decide; [|done].
    intros [= <-]. rewrite app_nil_r, live_recorded; [done|exact Hlive].
  - destruct (children g !! t) as [[]|]; try done. intros Hrel.
    apply recorded_release in Hrel; [|exact Hlive]. rewrite Hrel. simpl.
    destruct o; simpl; [by rewrite app_nil_r|done].
  - destruct (parent g) eqn:Ep; try done. intros Hrel.
    apply recorded_release in Hrel; [|done]. rewrite Hrel. simpl.
    by rewrite app_nil_r.
Qed.

Lemma run_recorded tr g g' :
  run tr g = Next g' -> recorded g' = recorded g ++ reported_failures tr.
Proof.
  revert g. induction tr as [|e tr IH]; intros g; simpl.
  { intros [= <-]. by rewrite app_nil_r. }
  destruct (step e g) as [g1|] eqn:E; [|done]. intros H.
  rewrite (IH _ H), (step_recorded _ _ _ E), <- app_assoc.
  unfold reported_failures. simpl.
  by destruct (reported_failure e).
Qed.



(** *** Schedules can be enumerated *)

Lemma all_done_forallb (cs : list (list event)) :
  Forall (fun c => c = []) cs ->
  forallb (fun c => match c with [] => true | _ => false end) cs = true.
Proof. induction 1 as [|c cs -> _ IH]; simpl; done. Qed.

Lemma schedule_in_schedules p cs n tr :
  schedule p cs n tr ->
  forall fuel, (length tr <= fuel)%nat -> tr ∈ schedules fuel p cs n.
Proof.
  induction 1 as [cs n Hcs|e p cs n tr _ IH|t e c p cs n tr Ht Hn _ IH];
    intros fuel Hfuel.
  - destruct fuel; simpl; rewrite (all_done_forallb cs Hcs); simpl; by left.
  - destruct fuel as [|fuel]; simpl in Hfuel; [lia|].
    cbn [schedules]. apply elem_of_app. right. apply elem_of_app. left.
    apply list_elem_of_fmap. exists tr. split; [done|]. apply IH. lia.
  - destruct fuel as [|fuel]; simpl in Hfuel; [lia|].
    cbn [schedules]. apply elem_of_app. right. apply elem_of_app. right.
    apply list_elem_of_In, in_concat.
    eexists. split.
    + apply list_elem_of_In, list_elem_of_lookup. exists t.
      rewrite list_lookup_imap, Ht. simpl. reflexivity.
    + apply Nat.ltb_lt in Hn. rewrite Hn.
      apply list_elem_of_In, list_elem_of_fmap. exists tr.
      split; [done|]. apply IH. lia.
Qed.

Lemma sync_block_schedules :
  forallb (fun tr =>
             bool_decide (test tr = Some ["before sync block";
                                          "Caught group error e test error";
                                          "Caught group error e test error"]))
          (schedules 7 sync_block_parent [begin_task 0; begin_task 1] 0)
  = true.
Proof. vm_compute. reflexivity. Qed.

Lemma schedule_length p cs n tr :
  schedule p cs n tr ->
  length tr = (length p + length (concat cs))%nat.
Proof.
  induction 1 as [cs n Hcs|e p cs n tr _ IH|t e c p cs n tr Ht Hn _ IH].
  - simpl. induction Hcs as [|c cs -> _ IHc]; simpl; [done|]. exact IHc.
  - simpl. by rewrite IH.
  - simpl. rewrite IH. clear IH.
    assert (length (concat cs) = S (length (concat (<[t:=c]> cs)))) as ->;
      [|lia].
    clear Hn. revert t Ht. induction cs as [|c0 cs IHc]; intros [|t]; simpl; try done.
    + intros [= ->]. simpl. done.
    + intros Ht. rewrite !length_app, (IHc t Ht). lia.
Qed.

Lemma release_total g :
  (parent g = ParentSuspended -> completed g = expected g ->
   terminated (children g) = length (children g)) ->
  exists g', release g = Next g'.
Proof.
  intros H. unfold release.
  destruct (parent g); [by eexists| |by eexists].
  destruct (completed g =? expected g)%nat eqn:E; [|by eexists].
  apply Nat.eqb_eq in E.
  assert (forallb is_terminal (children g) = true) as ->.
  { apply forallb_forall. intros s Hs.
    pose proof (terminated_all _ (H eq_refl E)) as Hall.
    rewrite Forall_forall in Hall. apply Hall. by apply list_elem_of_In. }
  simpl. by eexists.
Qed.

(* ===================================================================== *)
(** ** Structured Task Group: the claims *)
(* ===================================================================== *)

(** C1: whatever the interleaving, the group error is made of the
    failures the workers reported, each one once and in the order of
    arrival: a released parent got exactly them (a normal return when
    there are none), until then the aggregator holds exactly them, and
    they are the errors of the children that failed, duplicates
    included, so there are as many as failed children.  For
    [begin-throws.chpl]: the [sync] block has schedules, and under
    every one of them (the two tasks running in either order, before
    or after the parent reaches the join point) the process does not
    stop, the parent is released by a group error, and [test] prints
    one line for each of the two equal errors. *)
Theorem group_error_holds_every_child_error (expected_count : option nat)
    (tr : list event) (g : group) :
  run tr (open expected_count) = Next g ->
  (forall r, parent g = ParentResumed r ->
     r = raise_or_return (reported_failures tr))
  /\ ((forall r, parent g <> ParentResumed r) ->
      errors g = reported_failures tr)
  /\ reported_failures tr ≡ₚ failed_errors g
  /\ length (reported_failures tr) = length (failed_errors g)
  /\ schedule sync_block_parent [begin_task 0; begin_task 1] 0
       sync_block_events
  /\ (forall tr',
        schedule sync_block_parent [begin_task 0; begin_task 1] 0 tr' ->
        test tr' = Some ["before sync block";
                         "Caught group error e test error";
                         "Caught group error e test error"]).
Proof.
  intros Hrun.
  destruct (run_open_consistent _ _ _ Hrun) as (Hc & Hu & He & Hs & Hp).
  pose proof (run_recorded _ _ _ Hrun) as Hrec.
  assert (recorded (open expected_count) = []) as Hnil
    by (by destruct expected_count).
  rewrite Hnil in Hrec. simpl in Hrec.
  split; [|split; [|split; [|split; [|split]]]].
  - intros r Hr. destruct (Hp r Hr) as (_ & _ & -> & _). by rewrite Hrec.
  - intros Hlive. by rewrite <- Hrec, (live_recorded g Hlive).
  - by rewrite <- Hrec.
  - by rewrite <- Hrec, He.
  - unfold sync_block_events, sync_block_parent, begin_task. simpl.
    apply schedule_parent, schedule_parent, schedule_parent.
    apply (schedule_child 0 (Dispatch 0) [ChildTerminal 0 (Fails test_error)]);
      [done|lia|].
    apply (schedule_child 0 (ChildTerminal 0 (Fails test_error)) []);
      [done|lia|].
    apply (schedule_child 1 (Dispatch 1) [ChildTerminal 1 (Fails test_error)]);
      [done|lia|].
    apply (schedule_child 1 (ChildTerminal 1 (Fails test_error)) []);
      [done|lia|].
    apply schedule_done. by repeat constructor.
  - intros tr' Hs'.
    pose proof sync_block_schedules as Hall.
    rewrite forallb_forall in Hall.
    assert (tr' ∈ schedules 7 sync_block_parent [begin_task 0; begin_task 1] 0)
      as Hin.
    { apply (schedule_in_schedules _ _ _ _ Hs').
      by rewrite (schedule_length _ _ _ _ Hs'). }
    apply list_elem_of_In, Hall in Hin.
    by apply bool_decide_eq_true in Hin.
Qed.

Lemma group_error_holds_every_child_error_witness :
  let g := mkGroup true 2 2 [Failed "E1"; Failed "E2"] []
                   (ParentResumed (JoinRaises ["E2"; "E1"])) in
  run [RegisterChild; RegisterChild; Dispatch 1; Dispatch 0;
       ChildTerminal 1 (Fails "E2"); Join; ChildTerminal 0 (Fails "E1")]
      (open None) = Next g
  /\ forall r, parent g = ParentResumed r -> r = JoinRaises ["E2"; "E1"].
Proof.
  intros g. split; [vm_compute; reflexivity|].
  eapply (group_error_holds_every_child_error None
            [RegisterChild; RegisterChild; Dispatch 1; Dispatch 0;
             ChildTerminal 1 (Fails "E2"); Join; ChildTerminal 0 (Fails "E1")]).
  vm_compute. reflexivity.
Defined.

(** C2: take any execution that leads to a group with N registered
    children, and any state [g1] it passes through.  The completion
    counter of [g1] is at most N; if the parent has been released in
    [g1], the counter is N and all N children are registered and
    terminal (so below N the parent is never released), and every
    failure that a child reported is in the group error it got.
    Failed siblings suppress nothing: in [g1] a runnable child can
    still be dispatched, and a running child can still report, whatever
    its siblings did; a report is refused only where it would close
    a group that was opened for fewer children than were registered
    with it. *)
Theorem join_waits_for_every_child (expected_count : option nat)
    (tr1 tr2 : list event) (g1 g : group) (N : nat) :
  run tr1 (open expected_count) = Next g1 ->
  run tr2 g1 = Next g ->
  length (children g) = N ->
  (completed g1 <= N)%nat
  /\ (forall r, parent g1 = ParentResumed r ->
        completed g1 = N /\ length (children g1) = N /\
        Forall (fun s => is_terminal s = true) (children g1))
  /\ ((completed g1 < N)%nat -> forall r, parent g1 <> ParentResumed r)
  /\ (forall r t e, parent g1 = ParentResumed r ->
        ChildTerminal t (Fails e) ∈ tr1 ->
        exists es, r = JoinRaises es /\ e ∈ es)
  /\ (forall t, children g1 !! t = Some Runnable -> destroyed g1 = false ->
        exists g2, step (Dispatch t) g1 = Next g2 /\
                   children g2 !! t = Some Running)
  /\ (forall t o, children g1 !! t = Some Running -> destroyed g1 = false ->
        (exists g2, step (ChildTerminal t o) g1 = Next g2 /\
                    children g2 !! t = Some (terminal_state o))
        \/ (step (ChildTerminal t o) g1 = FatalRuntimeError /\
            unbounded g1 = false /\
            (expected g1 < length (children g1))%nat)).
Proof.
  intros Hrun1 Hrun2 HN.
  destruct (run_open_consistent _ _ _ Hrun1) as (Hc & Hu & _ & _ & Hp).
  destruct (run_grows _ _ _ Hrun2) as (Hlen & Hub & Hex).
  pose proof (terminated_le (children g1)) as Hle.
  assert (forall r, parent g1 = ParentResumed r ->
            completed g1 = N /\ length (children g1) = N /\
            Forall (fun s => is_terminal s = true) (children g1)) as Hres.
  { intros r Hr.
    assert (destroyed g1 = true) as Hd by (unfold destroyed; by rewrite Hr).
    destruct (run_destroyed _ _ _ Hd Hrun2) as [_ ->].
    destruct (Hp r Hr) as (_ & _ & _ & Hall).
    split; [|by split]. rewrite Hc, <- HN. by apply all_terminated. }
  split; [lia|]. split; [exact Hres|]. split; [|split; [|split]].
  - intros Hlt r Hr. destruct (Hres r Hr). lia.
  - intros r t e Hr Hin.
    destruct (Hp r Hr) as (_ & _ & -> & _).
    pose proof (run_recorded _ _ _ Hrun1) as Hrec.
    assert (recorded (open expected_count) = []) as Hnil
      by (by destruct expected_count).
    rewrite Hnil in Hrec. simpl in Hrec. rewrite Hrec.
    assert (e ∈ reported_failures tr1) as He.
    { unfold reported_failures. apply list_elem_of_omap.
      by exists (ChildTerminal t (Fails e)). }
    destruct (reported_failures tr1) as [|e0 es]; [by apply elem_of_nil in He|].
    by exists (e0 :: es).
  - intros t Ht Hd. simpl. unfold transition. rewrite Hd, Ht.
    rewrite bool_decide_eq_true_2 by done.
    eexists. split; [done|]. simpl.
    apply list_lookup_insert_eq. by eapply lookup_lt_Some.
  - intros t o Ht Hd. simpl. unfold on_child_terminal. rewrite Hd, Ht.
    destruct (Nat.le_gt_cases (length (children g1)) (expected g1))
      as [Hfit|Hover].
    2:{ match goal with |- (exists g2, release ?x = Next g2 /\ _) \/ _ =>
          destruct (release x) as [g2|] eqn:Hg2
        end.
        - left. exists g2. split; [done|].
          destruct (release_fields _ _ Hg2) as (_ & _ & -> & _). simpl.
          apply list_lookup_insert_eq. by eapply lookup_lt_Some.
        - right. split; [done|]. split; [|lia].
          destruct (unbounded g1); [|done]. specialize (Hu eq_refl). lia. }
    left.
    pose proof (terminated_insert _ _ _ (terminal_state o) Ht) as Hterm.
    assert (terminated (<[t:=terminal_state o]> (children g1))
            = S (terminated (children g1))) as Hterm'.
    { unfold task_id in *.
      destruct o; cbn [is_terminal terminal_state] in Hterm |- *; lia. }
    pose proof (terminated_le (<[t:=terminal_state o]> (children g1))) as Hle'.
    rewrite length_insert in Hle'.
    match goal with |- exists g2, release ?x = Next g2 /\ _ =>
      destruct (release_total x) as [g2 Hg2]
    end.
    { simpl. rewrite length_insert. intros _ E. lia. }
    exists g2. split; [done|].
    destruct (release_fields _ _ Hg2) as (_ & _ & -> & _). simpl.
    apply list_lookup_insert_eq. by eapply lookup_lt_Some.
Qed.

Lemma join_waits_for_every_child_witness :
  let g1 := mkGroup false 2 1 [Failed "E1"; Runnable] ["E1"] ParentSuspended in
  let g := mkGroup false 2 2 [Failed "E1"; Completed] []
                   (ParentResumed (JoinRaises ["E1"])) in
  run [RegisterChild; RegisterChild; Dispatch 0;
       ChildTerminal 0 (Fails "E1"); Join] (open (Some 2)) = Next g1
  /\ run [Dispatch 1; ChildTerminal 1 Completes] g1 = Next g
  /\ (completed g1 <= 2)%nat.
Proof.
  intros g1 g.
  assert (run [RegisterChild; RegisterChild; Dispatch 0;
               ChildTerminal 0 (Fails "E1"); Join] (open (Some 2)) = Next g1)
    as H1 by (vm_compute; reflexivity).
  assert (run [Dispatch 1; ChildTerminal 1 Completes] g1 = Next g)
    as H2 by (vm_compute; reflexivity).
  split; [exact H1|]. split; [exact H2|].
  eapply (join_waits_for_every_child (Some 2) _ _ g1 g 2 H1 H2).
  reflexivity.
Defined.



(* ===================================================================== *)
(** ** Synchronization Cell *)
(* ===================================================================== *)

Section Cell.
Variable refill : Z -> Z -> Z.








End Cell.




End RuntimeFacts.

(* ===================================================================== *)
(** ** More about [parseArgs]: how runs end *)
(* ===================================================================== *)

Module ArgMore.
Import CString CStringFacts Arg ArgFacts ArgExtra.

Ltac eval_switch cur Hc :=
  unfold parseSwitch, parseLongFlag, parseEnvFlag, parseFileFlag,
    parseNumLocalesFlag, streq;
  rewrite ?(char_at_cstr cur 0), ?(char_at_cstr cur 1), ?(char_at_cstr cur 2),
    ?(char_at_cstr cur 3), ?(cstr_advance cur 2)
    by (unfold strlen; rewrite Hc; simpl; lia);
  unfold strlen; rewrite Hc.

Ltac returns_steps :=
  repeat first
    [ apply returns_chpl_error
    | apply returns_ret
    | eapply returns_bind;
        [apply returns_defineEnvVar | intros ? ->]
    | eapply returns_bind; [apply returns_any | intros ? _]
    | match goal with
      | |- Arg.returns (if ?b then _ else _) _ => destruct b eqn:?
      | |- Arg.returns (when ?b _) _ => apply returns_any
      end ].

Section WithExternals.
Context {World : Type} (X : externals World).
Implicit Types (g : globals World).

Lemma set_i_same lv : set_i (i lv) lv = lv.
Proof. by destruct lv. Qed.

(** *** After ["--"] *)

Lemma pass_through_loop origargc n lv g :
  mainHasArgs X = true ->
  stop_parsing lv = true ->
  (length (argv lv) <= i lv + n)%nat ->
  parseArgs_loop X origargc n lv g =
  Done (set_i (Nat.max (i lv) (length (argv lv))) lv)
       (set_chpl_gen_main_arg
          (chpl_gen_main_arg g ++ drop (i lv) (argv lv)) g).
Proof.
  intros Hm. revert lv g. induction n as [|n IH]; intros lv g Hs Hn.
  - simpl. rewrite drop_ge by lia. rewrite app_nil_r.
    replace (Nat.max (i lv) (length (argv lv))) with (i lv) by lia.
    rewrite set_i_same. by destruct g.
  - simpl. destruct (i lv <? length (argv lv))%nat eqn:Hi.
    + apply Nat.ltb_lt in Hi.
      rewrite (bind_Done _ _ _ _ _ (parseArg_pass_through X origargc lv g Hm Hs)).
      rewrite IH; [|done|simpl; lia]. simpl.
      replace (Nat.max (S (i lv)) (length (argv lv)))
        with (Nat.max (i lv) (length (argv lv))) by lia.
      f_equal. unfold push_flag, set_chpl_gen_main_arg. simpl. f_equal.
      rewrite <- app_assoc. f_equal.
      destruct (nth_lookup_or_length (argv lv) (i lv) "") as [Hl|Hl]; [|lia].
      by rewrite (drop_S _ _ _ Hl).
    + apply Nat.ltb_ge in Hi. rewrite drop_ge by lia. rewrite app_nil_r.
      replace (Nat.max (i lv) (length (argv lv))) with (i lv) by lia.
      rewrite set_i_same. by destruct g.
Qed.


(** *** Where the loop is, and where it stops *)

Lemma arrives_argv origargc lv g lv' g' :
  arrives X origargc lv g lv' g' ->
  argv lv' = argv lv /\ (i lv <= i lv')%nat.
Proof.
  induction 1 as [lv g|lv g lv1 g1 lv' g' Hi Hstep _ IH]; [done|].
  destruct (parseArg_advances X origargc lv g lv1 g1 Hstep) as [Ha Hi1].
  simpl in IH. destruct IH as [-> Hi2]. split; [done|lia].
Qed.

(** If the loop gets to an iteration that stops the process, that is
    how [parseArgs] ends. *)
Lemma parseArgs_halts_in_iteration argv0 g lv g1 h g2 :
  arrives X (length argv0) (parseArgs_start argv0) g lv g1 ->
  (i lv < length (argv lv))%nat ->
  parseArg X (length argv0) lv g1 = Halted h g2 ->
  parseArgs X argv0 g = Halted h g2.
Proof.
  intros Harr Hi Hstep.
  destruct (arrives_loop X _ _ _ _ _ Harr (length argv0 - 1)) as (n' & Hn' & E).
  { simpl. lia. }
  destruct n' as [|n']; [lia|].
  unfold parseArgs. unfold bind at 1. rewrite E. simpl.
  apply Nat.ltb_lt in Hi. rewrite Hi. unfold bind. by rewrite Hstep.
Qed.

Lemma parseArgs_loop_enough origargc n k lv g :
  (length (argv lv) <= i lv + n)%nat ->
  parseArgs_loop X origargc (n + k) lv g = parseArgs_loop X origargc n lv g.
Proof.
  revert lv g. induction n as [|n IH]; intros lv g Hn.
  - simpl. destruct k as [|k]; simpl; [done|].
    destruct (i lv <? length (argv lv))%nat eqn:Hi; [|done].
    apply Nat.ltb_lt in Hi. lia.
  - simpl. destruct (i lv <? length (argv lv))%nat; [|done].
    unfold bind. destruct (parseArg X origargc lv g) as [lv1 g1|h g1] eqn:E;
      [|done].
    destruct (parseArg_advances X origargc lv g lv1 g1 E) as [Ha Hi1].
    apply IH. simpl. rewrite Ha. lia.
Qed.

Lemma parseArgs_loop_exit origargc n lv g lv' g' :
  (length (argv lv) <= i lv + n)%nat ->
  parseArgs_loop X origargc n lv g = Done lv' g' ->
  (length (argv lv') <= i lv')%nat.
Proof.
  revert lv g. induction n as [|n IH]; intros lv g Hn; simpl.
  - intros [= <- _]. lia.
  - destruct (i lv <? length (argv lv))%nat eqn:Hi.
    + unfold bind.
      destruct (parseArg X origargc lv g) as [lv1 g1|h g1] eqn:E; [|done].
      destruct (parseArg_advances X origargc lv g lv1 g1 E) as [Ha Hi1].
      apply IH. simpl. rewrite Ha. lia.
    + apply Nat.ltb_ge in Hi. by intros [= <- _].
Qed.

Lemma cstr_app a b : cstr (cstr a +:+ b) = cstr a +:+ cstr b.
Proof.
  induction a as [|c a IH]; simpl; [done|].
  destruct (Ascii.eqb c NUL) eqn:E; simpl; [done|]. by rewrite E, IH.
Qed.

Lemma chpl_glom_strings3_cstr a b c :
  cstr (chpl_glom_strings3 a b c) = chpl_glom_strings3 a b c.
Proof.
  unfold chpl_glom_strings3. by rewrite !cstr_app, cstr_idem.
Qed.


(** *** Single iterations *)

Lemma parseArg_switch origargc lv g :
  let cur := nth (i lv) (argv lv) "" in
  (2 <= strlen cur)%nat ->
  mainHasArgs X && stop_parsing lv = false ->
  mainHasArgs X = false \/ cstr cur <> "--" ->
  parseArg X origargc lv g =
  parseSwitch X lv cur (strlen cur) (lineno_of origargc lv) command_line g.
Proof.
  intros cur Hlen Hd Hne. unfold parseArg. cbv zeta. fold cur.
  assert ((strlen cur <? 2)%nat = false) as Hl by (by apply Nat.ltb_ge).
  rewrite Hl, orb_false_r, Hd.
  assert (mainHasArgs X && streq cur "--" = false) as ->.
  { destruct Hne as [-> | Hne]; [done|].
    apply andb_false_iff. right. by apply streq_neq. }
  reflexivity.
Qed.

Lemma parseArg_short origargc lv g :
  let cur := nth (i lv) (argv lv) "" in
  (strlen cur < 2)%nat ->
  parseArg X origargc lv g =
  if mainHasArgs X then Done lv (push_flag cur g)
  else Halted (chpl_error_halt (cstr (not_a_valid_argument cur))
                 (lineno_of origargc lv) command_line) g.
Proof.
  intros cur Hlen. unfold parseArg. cbv zeta. fold cur.
  assert ((strlen cur <? 2)%nat = true) as Hl by (by apply Nat.ltb_lt).
  rewrite Hl, orb_true_r. destruct (mainHasArgs X); reflexivity.
Qed.

Lemma parseSwitch_bare_double_dash lv cur lineno filename g :
  cstr cur = "--" ->
  parseSwitch X lv cur (strlen cur) lineno filename g =
  Halted (chpl_error_halt (cstr (not_a_valid_argument cur)) lineno filename) g.
Proof. intros Hc. eval_switch cur Hc. reflexivity. Qed.

Lemma parseSwitch_bare_s lv cur lineno filename g :
  cstr cur = "-s" ->
  parseSwitch X lv cur (strlen cur) lineno filename g =
  Halted (chpl_error_halt (cstr (not_a_valid_argument cur)) lineno filename) g.
Proof. intros Hc. eval_switch cur Hc. reflexivity. Qed.

Lemma parseSwitch_missing_operand lv cur lineno filename g :
  (length (argv lv) <= S (i lv))%nat ->
  (cstr cur = "-E" \/ cstr cur = "-f" ->
   parseSwitch X lv cur (strlen cur) lineno filename g =
   Halted (chpl_error_halt "-f flag is missing <filename> argument"
             lineno filename) g)
  /\ (cstr cur = "-nl" ->
      parseSwitch X lv cur (strlen cur) lineno filename g =
      Halted (chpl_error_halt "-nl flag is missing <numLocales> argument"
                lineno filename) g).
Proof.
  intros Hlast. apply Nat.leb_le in Hlast.
  split; [intros [Hc|Hc]|intros Hc]; eval_switch cur Hc;
    cbn -[Nat.leb]; rewrite Hlast; reflexivity.
Qed.

Lemma parseSwitch_about lv cur lineno filename g :
  cstr cur = "-a" \/ cstr cur = "--about" ->
  parseSwitch X lv cur (strlen cur) lineno filename g =
  Done (set_printAbout true lv) g.
Proof. intros [Hc|Hc]; eval_switch cur Hc; reflexivity. Qed.

Lemma printAbout_kept origargc lv :
  returns (parseArg X origargc lv)
    (fun lv' => printAbout lv = true -> printAbout lv' = true).
Proof.
  unfold parseArg, parseSwitch, parseLongFlag, parseEnvFlag, parseFileFlag,
    parseNumLocalesFlag, nonstandard, possible_config_var.
  returns_steps; simpl; done.
Qed.

Lemma printAbout_kept_loop origargc n lv :
  returns (parseArgs_loop X origargc n lv)
    (fun lv' => printAbout lv = true -> printAbout lv' = true).
Proof.
  revert lv. induction n as [|n IH]; intros lv; simpl.
  { by apply returns_ret. }
  destruct (i lv <? length (argv lv))%nat; [|by apply returns_ret].
  eapply returns_bind; [apply printAbout_kept|].
  intros lv1 H1 g lv2 g2 H. apply IH in H. intros Hp.
  apply H. simpl. by apply H1.
Qed.

End WithExternals.

(** X1: with a Chapel main that takes arguments, everything after the
    first ["--"] reaches the program as it is and in order, whatever
    it looks like (flags, a second ["--"], short or empty strings);
    nothing else in the state changes and [parseArgs] returns. *)
Theorem arguments_after_double_dash_go_to_main {World} (X : externals World)
    (prog : string) (rest : list string) (g : globals World) :
  mainHasArgs X = true ->
  parseArgs X (prog :: "--" :: rest) g =
  Done (prog :: "--" :: rest)
       (set_chpl_gen_main_arg (chpl_gen_main_arg g ++ rest) g).
Proof.
  intros Hm. unfold parseArgs. simpl length.
  replace (S (S (length rest)) - 1)%nat with (S (length rest)) by lia.
  simpl parseArgs_loop.
  assert (parseArg X (S (S (length rest))) (parseArgs_start (prog :: "--" :: rest)) g
          = Done (set_stop_parsing true (parseArgs_start (prog :: "--" :: rest))) g)
    as Hstep.
  { unfold parseArg. simpl. by rewrite Hm. }
  unfold bind at 1. rewrite (bind_Done _ _ _ _ _ Hstep).
  rewrite (pass_through_loop X _ _ _ _ Hm); [|done|simpl; lia].
  simpl. unfold parseArgs_finish, bind. simpl. done.
Qed.

Lemma arguments_after_double_dash_go_to_main_witness :
  parseArgs (plain_externals true) ["prog"; "--"; "-b"; "--"; "x"; "-Ea"]
            fresh_globals
  = Done ["prog"; "--"; "-b"; "--"; "x"; "-Ea"]
         (set_chpl_gen_main_arg ["prog"; "-b"; "--"; "x"; "-Ea"] fresh_globals).
Proof.
  apply (arguments_after_double_dash_go_to_main (plain_externals true)).
  reflexivity.
Defined.


Lemma lineno_in_parseArgs {World} (X : externals World) argv0 g lv g1 :
  arrives X (length argv0) (parseArgs_start argv0) g lv g1 ->
  lineno_of (length argv0) lv = Z.of_nat (i lv).
Proof.
  intros Harr. destruct (arrives_argv X _ _ _ _ _ Harr) as [Ha _].
  unfold lineno_of. rewrite Ha. simpl. lia.
Qed.

(** X2: an argument that cannot be a flag ends the run with
    ["<arg>" is not a valid argument], reported for the argument's
    position, the state as the earlier arguments left it: an argument
    of fewer than two characters (the empty string among them) or a
    ["--"] when the Chapel main takes no arguments, and a bare ["-s"]
    in any case. *)
Theorem unparsable_argument_is_fatal {World} (X : externals World)
    (argv0 : list string) (g : globals World) (lv : locals)
    (g1 : globals World) :
  arrives X (length argv0) (parseArgs_start argv0) g lv g1 ->
  (i lv < length (argv lv))%nat ->
  ((strlen (nth (i lv) (argv lv) "") < 2)%nat /\ mainHasArgs X = false)
  \/ (cstr (nth (i lv) (argv lv) "") = "--" /\ mainHasArgs X = false)
  \/ (cstr (nth (i lv) (argv lv) "") = "-s" /\ dispatches X lv) ->
  parseArgs X argv0 g =
  Halted (chpl_error_halt
            (dquote +:+ cstr (nth (i lv) (argv lv) "") +:+ dquote +:+
             " is not a valid argument")
            (Z.of_nat (i lv)) (Some "<command-line arg>")) g1.
Proof.
  intros Harr Hi Hcase.
  apply (parseArgs_halts_in_iteration X argv0 g lv g1 _ _ Harr Hi).
  rewrite <- (lineno_in_parseArgs X argv0 g lv g1 Harr).
  set (cur := nth (i lv) (argv lv) "") in *.
  assert (dquote +:+ cstr cur +:+ dquote +:+ " is not a valid argument"
          = cstr (not_a_valid_argument cur)) as ->.
  { unfold not_a_valid_argument. by rewrite chpl_glom_strings3_cstr. }
  destruct Hcase as [[Hlen Hm]|[[Hc Hm]|[Hc Hd]]].
  - pose proof (parseArg_short X (length argv0) lv g1 Hlen) as H.
    by rewrite Hm in H.
  - rewrite parseArg_switch.
    + by apply parseSwitch_bare_double_dash.
    + fold cur. unfold strlen. by rewrite Hc.
    + by rewrite Hm.
    + by left.
  - rewrite parseArg_switch.
    + by apply parseSwitch_bare_s.
    + fold cur. unfold strlen. by rewrite Hc.
    + exact Hd.
    + right. fold cur. by rewrite Hc.
Qed.

Lemma unparsable_argument_is_fatal_witness :
  parseArgs (plain_externals false) ["prog"; "-v"; ""; "-b"] fresh_globals =
  Halted (chpl_error_halt (dquote +:+ dquote +:+ " is not a valid argument")
            2 (Some "<command-line arg>"))
         (set_verbosity 2 fresh_globals).
Proof.
  apply (unparsable_argument_is_fatal (plain_externals false)
           ["prog"; "-v"; ""; "-b"] fresh_globals
           (mkLocals 2 false false false ["prog"; "-v"; ""; "-b"])
           (set_verbosity 2 fresh_globals)).
  - apply (arrives_next _ _ _ _
             (parseArgs_start ["prog"; "-v"; ""; "-b"])
             (set_verbosity 2 fresh_globals));
      [simpl; lia|reflexivity|apply arrives_here].
  - simpl. lia.
  - left. split; [unfold strlen; simpl; lia|reflexivity].
Defined.

(** X3: a flag that takes its operand from the next argument and is the
    last argument ends the run with an error for its position.  For
    [-nl] the message names [-nl]; for [-f] and also for [-E] it is
    "-f flag is missing <filename> argument". *)
Theorem missing_operand_is_fatal {World} (X : externals World)
    (argv0 : list string) (g : globals World) (lv : locals)
    (g1 : globals World) :
  arrives X (length argv0) (parseArgs_start argv0) g lv g1 ->
  S (i lv) = length (argv lv) ->
  dispatches X lv ->
  (cstr (nth (i lv) (argv lv) "") = "-E" \/
   cstr (nth (i lv) (argv lv) "") = "-f" ->
   parseArgs X argv0 g =
   Halted (chpl_error_halt "-f flag is missing <filename> argument"
             (Z.of_nat (i lv)) (Some "<command-line arg>")) g1)
  /\ (cstr (nth (i lv) (argv lv) "") = "-nl" ->
      parseArgs X argv0 g =
      Halted (chpl_error_halt "-nl flag is missing <numLocales> argument"
                (Z.of_nat (i lv)) (Some "<command-line arg>")) g1).
Proof.
  intros Harr Hlast Hd.
  assert (i lv < length (argv lv))%nat as Hi by lia.
  set (cur := nth (i lv) (argv lv) "") in *.
  destruct (parseSwitch_missing_operand X lv cur
              (lineno_of (length argv0) lv) command_line g1) as [HEf Hnl];
    [lia|].
  rewrite (lineno_in_parseArgs X argv0 g lv g1 Harr) in HEf, Hnl.
  assert (forall c, cstr cur = c -> (2 <= String.length c)%nat -> c <> "--" ->
            parseArg X (length argv0) lv g1 =
            parseSwitch X lv cur (strlen cur) (Z.of_nat (i lv)) command_line g1)
    as Hsw.
  { intros c Hc Hlen Hne.
    rewrite <- (lineno_in_parseArgs X argv0 g lv g1 Harr).
    apply parseArg_switch; fold cur.
    - unfold strlen. by rewrite Hc.
    - exact Hd.
    - right. by rewrite Hc. }
  split; intros Hc;
    apply (parseArgs_halts_in_iteration X argv0 g lv g1 _ _ Harr Hi).
  - rewrite (Hsw (cstr cur) eq_refl); [by apply HEf| |];
      destruct Hc as [-> | ->]; simpl; (lia || done).
  - rewrite (Hsw (cstr cur) eq_refl); [by apply Hnl| |];
      rewrite Hc; simpl; (lia || done).
Qed.

Lemma missing_operand_is_fatal_witness :
  parseArgs (plain_externals false) ["prog"; "-b"; "-E"] fresh_globals =
  Halted (chpl_error_halt "-f flag is missing <filename> argument"
            2 (Some "<command-line arg>"))
         (set_blockreport 1 fresh_globals).
Proof.
  apply (missing_operand_is_fatal (plain_externals false)
           ["prog"; "-b"; "-E"] fresh_globals
           (mkLocals 2 false false false ["prog"; "-b"; "-E"])
           (set_blockreport 1 fresh_globals)).
  - apply (arrives_next _ _ _ _
             (parseArgs_start ["prog"; "-b"; "-E"])
             (set_blockreport 1 fresh_globals));
      [simpl; lia|reflexivity|apply arrives_here].
  - reflexivity.
  - reflexivity.
  - by left.
Defined.

(** X4: the about flag wins over the help flag.  If the loop dispatches
    ["-a"] or ["--about"] and gets through the remaining arguments,
    [parseArgs] calls [chpl_program_about] and exits with status 0,
    whether or not a help flag was given and whether or not the Chapel
    main takes arguments; the help table is not printed. *)
Theorem about_flag_exits_before_help {World} (X : externals World)
    (argv0 : list string) (g : globals World) (lv : locals)
    (g1 : globals World) (lvF : locals) (gF g2 : globals World) :
  arrives X (length argv0) (parseArgs_start argv0) g lv g1 ->
  (i lv < length (argv lv))%nat ->
  dispatches X lv ->
  cstr (nth (i lv) (argv lv) "") = "-a" \/
  cstr (nth (i lv) (argv lv) "") = "--about" ->
  parseArgs_loop X (length argv0) (length argv0 - 1)
    (parseArgs_start argv0) g = Done lvF gF ->
  chpl_program_about X gF = Done tt g2 ->
  parseArgs X argv0 g = Halted (chpl_exit_halt 0) g2.
Proof.
  intros Harr Hi Hd Hc Hloop Habout.
  assert (printAbout lvF = true) as Hp.
  { destruct (arrives_loop X _ _ _ _ _ Harr (length argv0 - 1))
      as (n' & Hn' & E); [simpl; lia|].
    destruct n' as [|n']; [lia|].
    rewrite E in Hloop. simpl in Hloop.
    apply Nat.ltb_lt in Hi. rewrite Hi in Hloop.
    assert (parseArg X (length argv0) lv g1 = Done (set_printAbout true lv) g1)
      as Hstep.
    { rewrite parseArg_switch.
      - by apply parseSwitch_about.
      - unfold strlen. destruct Hc as [-> | ->]; simpl; lia.
      - exact Hd.
      - right. by destruct Hc as [-> | ->]. }
    rewrite (bind_Done _ _ _ _ _ Hstep) in Hloop.
    by apply (printAbout_kept_loop X _ _ _ _ _ _ Hloop). }
  unfold parseArgs. rewrite (bind_Done _ _ _ _ _ Hloop).
  unfold parseArgs_finish. rewrite Hp. simpl when.
  unfold bind. by rewrite Habout.
Qed.

Lemma about_flag_exits_before_help_witness :
  parseArgs (plain_externals false) ["prog"; "-h"; "--about"; "-t"]
            fresh_globals
  = Halted (chpl_exit_halt 0)
           (set_taskreport 1 (push_flag "-h" fresh_globals)).
Proof.
  eapply (about_flag_exits_before_help (plain_externals false)
            ["prog"; "-h"; "--about"; "-t"] fresh_globals
            (mkLocals 2 true false false ["prog"; "-h"; "--about"; "-t"])
            (push_flag "-h" fresh_globals)).
  - apply (arrives_next _ _ _ _
             (set_printHelp true
                (parseArgs_start ["prog"; "-h"; "--about"; "-t"]))
             (push_flag "-h" fresh_globals));
      [simpl; lia|reflexivity|apply arrives_here].
  - simpl. lia.
  - reflexivity.
  - by right.
  - reflexivity.
  - reflexivity.
Defined.

End ArgMore.

(* ===================================================================== *)
(** ** More about [defineEnvVar] *)
(* ===================================================================== *)

Module EnvMore.
Import CString CStringFacts Arg ArgFacts.

(** *** More about C strings *)

Lemma advance_app pre s : advance (String.length pre) (pre +:+ s) = s.
Proof. induction pre as [|a pre IH]; simpl; done. Qed.

Lemma advance_add m n s : advance (m + n) s = advance n (advance m s).
Proof.
  revert s. induction m as [|m IH]; intros s; simpl; [done|].
  destruct s as [|a s]; [by destruct n|]. apply IH.
Qed.

Lemma strchr_app name c rest :
  cstr name = name -> strchr name c = None ->
  strchr (name +:+ String c rest) c = Some (String.length name).
Proof.
  induction name as [|a name IH]; simpl.
  - intros _ _. by rewrite Ascii.eqb_refl.
  - destruct (Ascii.eqb a NUL) eqn:Ea; [done|]. intros [= Hn].
    destruct (Ascii.eqb a c); [done|].
    destruct (strchr name c) eqn:Hs; [done|]. intros _.
    by rewrite IH.
Qed.

Lemma poke_app name c d rest :
  poke (name +:+ String c rest) (String.length name) d
  = name +:+ String d rest.
Proof. induction name as [|a name IH]; simpl; [done|]. by rewrite IH. Qed.

Lemma cstr_app_nul name rest :
  cstr name = name -> cstr (name +:+ String NUL rest) = name.
Proof.
  induction name as [|a name IH]; simpl; [done|].
  destruct (Ascii.eqb a NUL); [done|]. intros [= Hn].
  by rewrite IH.
Qed.

Lemma advance_app_S name c rest :
  advance (S (String.length name)) (name +:+ String c rest) = rest.
Proof. induction name as [|a name IH]; simpl; done. Qed.

Section WithExternals.
Context {World : Type} (X : externals World).
Implicit Types (g : globals World).

(** [defineEnvVar] only looks at the array from its offset on. *)
Lemma defineEnvVar_offset buf off lineno filename g :
  defineEnvVar X buf off lineno filename g =
  match defineEnvVar X (advance off buf) 0 lineno filename g with
  | Done _ g' => Done buf g'
  | Halted h g' => Halted h g'
  end.
Proof.
  unfold defineEnvVar. simpl (advance 0 _).
  destruct (strchr (advance off buf) "=") as [k|] eqn:Hk; [|done].
  simpl (0 + k)%nat.
  rewrite (poke_advance buf off k NUL).
  replace (S (off + k)) with (off + S k)%nat by lia.
  rewrite advance_add, (poke_advance buf off k NUL).
  rewrite (poke_poke buf), (poke_poke (advance off buf)).
  rewrite (poke_at_advance buf off k "=" (poke_strchr _ _ _ Hk)).
  rewrite (poke_strchr _ _ _ Hk).
  unfold bind.
  destruct (setenv _ _ 0 g) as [rc g1|h g1]; [|done].
  by destruct (negb (rc =? 0)%Z).
Qed.

(** On a well-formed ["name=value"], with memory to spare,
    [defineEnvVar] acts on the environment like an insertion that
    gives way to an existing entry. *)
Lemma defineEnvVar_name_value name value lineno filename g :
  cstr name = name -> strchr name "=" = None -> name <> "" ->
  heap_exhausted g = false ->
  defineEnvVar X (name +:+ String "=" value) 0 lineno filename g =
  Done (name +:+ String "=" value)
       (match environ g !! name with
        | Some _ => g
        | None => set_environ (<[name := cstr value]> (environ g)) g
        end).
Proof.
  intros Hn He Hne Hheap. unfold defineEnvVar. simpl (advance 0 _).
  rewrite (strchr_app name "=" value Hn He). simpl (0 + _)%nat.
  rewrite poke_app. simpl (advance 0 _).
  rewrite (cstr_app_nul name value Hn), advance_app_S, poke_app.
  unfold bind, setenv.
  assert (String.eqb name "" = false) as -> by (by apply String.eqb_neq).
  rewrite He. rewrite bool_decide_eq_false_2 by (by intros [? ?]).
  simpl orb. cbv iota.
  destruct (environ g !! name) as [old|] eqn:Hl.
  - rewrite bool_decide_eq_true_2 by eauto. simpl. done.
  - rewrite bool_decide_eq_false_2 by (by intros [? ?]). simpl.
    rewrite Hheap. simpl. done.
Qed.

End WithExternals.

(** X6: what [defineEnvVar] does with a well-formed argument.  For
    [name=value] at any offset of the array, [name] non-empty and free
    of ['='], and memory to spare: if [name] is not set, it is set to
    [value] (up to the terminator; [value] may itself contain ['='],
    the split is at the first one) and nothing else changes; if
    [name] is set, the state is left exactly as it was.  The array
    comes back unchanged in both cases. *)
Theorem defineEnvVar_sets_unset_variable {World} (X : externals World)
    (pre name value : string) (lineno : Z) (filename : option string)
    (g : globals World) :
  cstr name = name -> strchr name "=" = None -> name <> "" ->
  heap_exhausted g = false ->
  defineEnvVar X (pre +:+ name +:+ String "=" value) (String.length pre)
               lineno filename g =
  Done (pre +:+ name +:+ String "=" value)
       (match environ g !! name with
        | Some _ => g
        | None => set_environ (<[name := cstr value]> (environ g)) g
        end).
Proof.
  intros Hn He Hne Hheap.
  rewrite defineEnvVar_offset, advance_app.
  by rewrite (defineEnvVar_name_value X name value lineno filename g).
Qed.

Lemma defineEnvVar_sets_unset_variable_witness :
  environ (state_of (defineEnvVar (plain_externals false)
                       "-EPATH=/bin=x" 2 1 None fresh_globals))
    !! "PATH" = Some "/bin=x".
Proof.
  pose proof (defineEnvVar_sets_unset_variable (plain_externals false)
                "-E" "PATH" "/bin=x" 1 None fresh_globals
                eq_refl eq_refl ltac:(discriminate) eq_refl) as H.
  change ("-E" +:+ "PATH" +:+ String "=" "/bin=x") with "-EPATH=/bin=x" in H.
  change (String.length "-E") with 2%nat in H.
  rewrite H. simpl. apply lookup_insert_eq.
Defined.

(** X7: a failing [setenv] is silent.  For [name=value] at any offset of
    the array, when [name] is empty (as in [-E=value]), or when [name]
    is not set and the allocation fails: [defineEnvVar] returns
    normally, the environment is as before, and all that changes is
    [errno] and the static buffer that receives the formatted message
    (cut to 999 characters); nothing is printed and the process goes
    on. *)
Theorem defineEnvVar_failure_is_silent {World} (X : externals World)
    (pre name value : string) (lineno : Z) (filename : option string)
    (g : globals World) :
  cstr name = name -> strchr name "=" = None ->
  name = "" \/ (environ g !! name = None /\ heap_exhausted g = true) ->
  let e := if String.eqb name "" then EINVAL else ENOMEM in
  defineEnvVar X (pre +:+ name +:+ String "=" value) (String.length pre)
               lineno filename g =
  Done (pre +:+ name +:+ String "=" value)
       (set_errmsg
          (String.substring 0 999
             ("Cannot setenv(" +:+ dquote +:+ name +:+ dquote +:+ "): "
              +:+ strerror X e))
          (set_errno e g)).
Proof.
  intros Hn He Hfail e.
  rewrite defineEnvVar_offset, advance_app.
  unfold defineEnvVar. simpl (advance 0 _).
  rewrite (strchr_app name "=" value Hn He). simpl (0 + _)%nat.
  rewrite poke_app. simpl (advance 0 _).
  rewrite (cstr_app_nul name value Hn), advance_app_S, poke_app.
  unfold bind, setenv. rewrite He.
  rewrite (bool_decide_eq_false_2 (is_Some None)) by (by intros [? ?]).
  subst e. destruct Hfail as [-> | [Hl Hheap]].
  - simpl. done.
  - destruct (String.eqb name "") eqn:Hne.
    + apply String.eqb_eq in Hne. subst name. simpl. done.
    + simpl orb. cbv iota. rewrite Hl.
      rewrite bool_decide_eq_false_2 by (by intros [? ?]). simpl.
      rewrite Hheap. simpl. done.
Qed.

Lemma defineEnvVar_failure_is_silent_witness :
  defineEnvVar (plain_externals false) "-E=1" 2 1 None fresh_globals =
  Done "-E=1"
       (set_errmsg
          (String.substring 0 999
             ("Cannot setenv(" +:+ dquote +:+ "" +:+ dquote +:+ "): "
              +:+ strerror (plain_externals false) EINVAL))
          (set_errno EINVAL fresh_globals)).
Proof.
  apply (defineEnvVar_failure_is_silent (plain_externals false)
           "-E" "" "1" 1 None fresh_globals eq_refl eq_refl).
  by left.
Defined.

End EnvMore.

(* ===================================================================== *)
(** ** Flags with an operand: the two forms *)
(* ===================================================================== *)

Module FormsMore.
Import CString CStringFacts Arg ArgFacts ArgExtra EnvMore.

Section WithExternals.
Context {World : Type} (X : externals World).
Implicit Types (g : globals World).

Lemma ending_bind_ret {A B} (m : M World A) (k : A -> B) g :
  ending (bind m (fun a => ret (k a)) g) = ending (m g).
Proof. unfold bind. by destruct (m g). Qed.

(** A command line that one iteration uses up. *)
Lemma parseArgs_single argv0 g {A} (m : M World A) (k : A -> locals) :
  (2 <= length argv0)%nat ->
  parseArg X (length argv0) (parseArgs_start argv0) g
    = bind m (fun a => ret (k a)) g ->
  (forall a, (length (argv (k a)) <= S (i (k a)))%nat
             /\ printHelp (k a) = false /\ printAbout (k a) = false) ->
  ending (parseArgs X argv0 g) = ending (m g).
Proof.
  intros Hlen Hstep Hk. unfold parseArgs.
  destruct (length argv0 - 1)%nat as [|n] eqn:En; [lia|].
  simpl parseArgs_loop.
  assert ((1 <? length argv0)%nat = true) as -> by (apply Nat.ltb_lt; lia).
  unfold bind in Hstep. unfold bind at 1. unfold bind at 1. rewrite Hstep.
  destruct (m g) as [a g'|h g']; [|reflexivity].
  unfold ret at 1. cbv iota beta. destruct (Hk a) as (Hi & Hh & Ha).
  assert (parseArgs_loop X (length argv0) n (set_i (S (i (k a))) (k a)) g'
          = Done (set_i (S (i (k a))) (k a)) g') as ->.
  { destruct n as [|n]; simpl; [done|].
    assert ((S (i (k a)) <? length (argv (k a)))%nat = false) as ->
      by (apply Nat.ltb_ge; lia).
    done. }
  unfold parseArgs_finish, bind. simpl. by rewrite Hh, Ha.
Qed.

Lemma first_char_not_nul c op : cstr (String c op) <> "" -> Ascii.eqb c NUL = false.
Proof. simpl. by destruct (Ascii.eqb c NUL). Qed.

Lemma glued_E prog op g :
  cstr op <> "" ->
  parseArg X 2 (parseArgs_start [prog; "-E" +:+ op]) g =
  bind (defineEnvVar X ("-E" +:+ op) 2 1 (Some "<command-line arg>"))
       (fun buf => ret (set_argv [prog; buf]
                          (parseArgs_start [prog; "-E" +:+ op]))) g.
Proof.
  intros Hop. destruct op as [|c op]; [done|].
  pose proof (first_char_not_nul c op Hop) as Hc.
  change ("-E" +:+ String c op) with (String "-" (String "E" (String c op))).
  unfold parseArg. cbn. rewrite ?Hc. cbn. rewrite !andb_false_r.
  unfold parseSwitch, parseEnvFlag. cbn. rewrite ?Hc. reflexivity.
Qed.

Lemma separate_E prog op g :
  parseArg X 3 (parseArgs_start [prog; "-E"; op]) g =
  bind (defineEnvVar X op 0 1 (Some "<command-line arg>"))
       (fun buf => ret (set_argv [prog; "-E"; buf]
                          (set_i 2 (parseArgs_start [prog; "-E"; op])))) g.
Proof.
  unfold parseArg. cbn. rewrite !andb_false_r. reflexivity.
Qed.

Lemma glued_f prog op g :
  cstr op <> "" ->
  parseArg X 2 (parseArgs_start [prog; "-f" +:+ op]) g =
  bind (parseConfigFile X op 1 (Some "<command-line arg>"))
       (fun _ => ret (parseArgs_start [prog; "-f" +:+ op])) g.
Proof.
  intros Hop. destruct op as [|c op]; [done|].
  pose proof (first_char_not_nul c op Hop) as Hc.
  change ("-f" +:+ String c op) with (String "-" (String "f" (String c op))).
  unfold parseArg. cbn. rewrite ?Hc. cbn. rewrite !andb_false_r.
  unfold parseSwitch, parseFileFlag. cbn. rewrite ?Hc. reflexivity.
Qed.

Lemma separate_f prog op g :
  parseArg X 3 (parseArgs_start [prog; "-f"; op]) g =
  bind (parseConfigFile X op 1 (Some "<command-line arg>"))
       (fun _ => ret (set_i 2 (parseArgs_start [prog; "-f"; op]))) g.
Proof.
  unfold parseArg. cbn. rewrite !andb_false_r. reflexivity.
Qed.

Lemma glued_nl prog op g :
  cstr op <> "" ->
  parseArg X 2 (parseArgs_start [prog; "-nl" +:+ op]) g =
  bind (initSetValue X "numLocales" op "Built-in" 1 (Some "<command-line arg>"))
       (fun _ => ret (parseArgs_start [prog; "-nl" +:+ op])) g.
Proof.
  intros Hop. destruct op as [|c op]; [done|].
  pose proof (first_char_not_nul c op Hop) as Hc.
  change ("-nl" +:+ String c op)
    with (String "-" (String "n" (String "l" (String c op)))).
  unfold parseArg. cbn. rewrite ?Hc. cbn. rewrite !andb_false_r.
  unfold parseSwitch, parseNumLocalesFlag. cbn. rewrite ?Hc. reflexivity.
Qed.

Lemma separate_nl prog op g :
  parseArg X 3 (parseArgs_start [prog; "-nl"; op]) g =
  bind (initSetValue X "numLocales" op "Built-in" 1 (Some "<command-line arg>"))
       (fun _ => ret (set_i 2 (parseArgs_start [prog; "-nl"; op]))) g.
Proof.
  unfold parseArg. cbn. rewrite !andb_false_r. reflexivity.
Qed.

End WithExternals.

(** X8: for the flags that take an operand, the glued form and the
    separate form do the same.  For a non-empty operand, a command
    line that consists of [-E op], [-f op] or [-nl op] ends in the
    same way (return, or the same error with the same position) and
    in the same state as the one that consists of [-Eop], [-fop] or
    [-nlop]. *)
Theorem glued_and_separate_operands_agree {World} (X : externals World)
    (prog op : string) (g : globals World) :
  cstr op <> "" ->
  ending (parseArgs X [prog; "-E"; op] g)
    = ending (parseArgs X [prog; "-E" +:+ op] g)
  /\ ending (parseArgs X [prog; "-f"; op] g)
    = ending (parseArgs X [prog; "-f" +:+ op] g)
  /\ ending (parseArgs X [prog; "-nl"; op] g)
    = ending (parseArgs X [prog; "-nl" +:+ op] g).
Proof.
  intros Hop. split; [|split].
  - rewrite (parseArgs_single X [prog; "-E"; op] g _ _ ltac:(simpl; lia) (separate_E X prog op g))
      by (intros; simpl; repeat split; lia).
    rewrite (parseArgs_single X [prog; "-E" +:+ op] g _ _ ltac:(simpl; lia) (glued_E X prog op g Hop))
      by (intros; simpl; repeat split; lia).
    rewrite (defineEnvVar_offset X ("-E" +:+ op) 2).
    change (advance 2 ("-E" +:+ op)) with op.
    by destruct (defineEnvVar X op 0 1 (Some "<command-line arg>") g).
  - rewrite (parseArgs_single X [prog; "-f"; op] g _ _ ltac:(simpl; lia) (separate_f X prog op g))
      by (intros; simpl; repeat split; lia).
    by rewrite (parseArgs_single X [prog; "-f" +:+ op] g _ _ ltac:(simpl; lia) (glued_f X prog op g Hop))
      by (intros; simpl; repeat split; lia).
  - rewrite (parseArgs_single X [prog; "-nl"; op] g _ _ ltac:(simpl; lia) (separate_nl X prog op g))
      by (intros; simpl; repeat split; lia).
    by rewrite (parseArgs_single X [prog; "-nl" +:+ op] g _ _ ltac:(simpl; lia) (glued_nl X prog op g Hop))
      by (intros; simpl; repeat split; lia).
Qed.

Lemma glued_and_separate_operands_agree_witness :
  ending (parseArgs (plain_externals false) ["prog"; "-E"; "A=1"] fresh_globals)
  = ending (parseArgs (plain_externals false) ["prog"; "-EA=1"] fresh_globals).
Proof.
  apply (glued_and_separate_operands_agree (plain_externals false)
           "prog" "A=1" fresh_globals).
  discriminate.
Defined.

End FormsMore.

(* ===================================================================== *)
(** ** What [parseArgs] assigns, flag by flag *)
(* ===================================================================== *)

Module FlagsMore.
Import CString CStringFacts Arg ArgFacts ArgExtra ArgMore.

Section WithExternals.
Context {World : Type} (X : externals World).
Implicit Types (g : globals World) (R : relation (globals World)).

#[global] Instance verbosity_set_refl P2 P0 :
  Reflexive (verbosity_set (World := World) P2 P0).
Proof. intros g. by left. Qed.

#[global] Instance verbosity_set_trans P2 P0 :
  Transitive (verbosity_set (World := World) P2 P0).
Proof.
  intros g1 g2 g3 H1 H2. unfold verbosity_set in *.
  destruct H2 as [H2|[H2|H2]]; [|by right; left|by right; right].
  rewrite H2. exact H1.
Qed.

#[global] Instance gdbFlag_set_refl P :
  Reflexive (gdbFlag_set (World := World) P).
Proof. intros g. by left. Qed.

#[global] Instance gdbFlag_set_trans P :
  Transitive (gdbFlag_set (World := World) P).
Proof.
  intros g1 g2 g3 H1 H2. unfold gdbFlag_set in *.
  destruct H2 as [H2|H2]; [|by right]. rewrite H2. exact H1.
Qed.

#[global] Instance main_arg_grows_refl S :
  Reflexive (main_arg_grows (World := World) S).
Proof. intros g. exists []. by rewrite app_nil_r. Qed.

#[global] Instance main_arg_grows_trans S :
  Transitive (main_arg_grows (World := World) S).
Proof.
  intros g1 g2 g3 (m1 & H1 & F1) (m2 & H2 & F2). exists (m1 ++ m2)%list.
  split; [by rewrite H2, H1, app_assoc|by apply Forall_app].
Qed.

Ltac walk :=
  repeat match goal with
    | |- respects _ (bind _ _) => apply respects_bind; [tc_solve| |intros ?]
    | |- respects _ (when _ _) => apply respects_when; [tc_solve|]
    | |- respects _ (ret _) => apply respects_ret; tc_solve
    | |- respects _ (gets _) => apply respects_gets; tc_solve
    | |- respects _ (chpl_error _ _ _) => apply respects_chpl_error; tc_solve
    | |- respects _ (chpl_exit_any _) => apply respects_chpl_exit_any; tc_solve
    | |- respects _ (if ?b then _ else _) => destruct b eqn:?
    | |- respects _ _ => solve [eauto 2 with frame]
    end.

Ltac flag_known cur :=
  first [ by apply (long_flag_cstr cur "gdb")
        | by apply (long_flag_cstr cur "help")
        | by apply (long_flag_cstr cur "verbose")
        | by apply (long_flag_cstr cur "quiet")
        | by apply (long_flag_cstr cur "blockreport")
        | by apply (long_flag_cstr cur "taskreport")
        | by apply bare_flag_cstr ].

Lemma parseArg_assigns R `{!Reflexive R} `{!Transitive R} origargc lv :
  externals_respect R X ->
  assignments X R (i lv) (nth (i lv) (argv lv) "") ->
  respects R (parseArg X origargc lv).
Proof.
  intros HX HA. unfold parseArg. cbv zeta.
  set (cur := nth (i lv) (argv lv) "") in *.
  destruct (mainHasArgs X && (stop_parsing lv || (strlen cur <? 2)%nat))
    eqn:Hpass.
  { apply andb_true_iff in Hpass as [Hm _].
    walk. apply respects_modify. intros g.
    exact (assign_pass_through X R _ _ HA g Hm). }
  destruct (mainHasArgs X && streq cur "--"); [walk|].
  destruct (strlen cur <? 2)%nat eqn:Hlen.
  { intros g. simpl. reflexivity. }
  apply respects_bind. 1: tc_solve. 1: walk. intros _.
  unfold parseSwitch, parseLongFlag, parseEnvFlag, parseFileFlag,
    parseNumLocalesFlag, nonstandard, possible_config_var.
  cbv zeta.
  walk; try (apply respects_modify; intros g);
    first
      [ apply (assign_defineEnvVar X R _ _ HA)
      | apply (assign_gdbFlag X R _ _ HA); flag_known cur
      | apply (assign_help X R _ _ HA g "--help"); [by right|flag_known cur]
      | apply (assign_help X R _ _ HA g "-h"); [by left|flag_known cur]
      | apply (assign_verbose X R _ _ HA); right; flag_known cur
      | apply (assign_verbose X R _ _ HA); left; flag_known cur
      | apply (assign_quiet X R _ _ HA); right; flag_known cur
      | apply (assign_quiet X R _ _ HA); left; flag_known cur
      | apply (assign_blockreport X R _ _ HA); right; flag_known cur
      | apply (assign_blockreport X R _ _ HA); left; flag_known cur
      | apply (assign_taskreport X R _ _ HA); right; flag_known cur
      | apply (assign_taskreport X R _ _ HA); left; flag_known cur ].
Qed.

Lemma parseArgs_loop_assigns R `{!Reflexive R} `{!Transitive R}
    origargc n lv :
  externals_respect R X ->
  (forall j a, (i lv <= j)%nat -> argv lv !! j = Some a ->
               assignments X R j a) ->
  respects R (parseArgs_loop X origargc n lv).
Proof.
  intros HX. revert lv. induction n as [|n IH]; intros lv HA; simpl.
  { by apply respects_ret. }
  destruct (i lv <? length (argv lv))%nat eqn:Hi; [|by apply respects_ret].
  apply Nat.ltb_lt in Hi.
  apply (respects_bind_returns R _ _ (advances lv)).
  - apply parseArg_assigns; [tc_solve|tc_solve|done|].
    rewrite nth_lookup.
    destruct (argv lv !! i lv) as [a|] eqn:Ha.
    + simpl. by apply (HA (i lv)).
    + apply lookup_ge_None in Ha. lia.
  - apply parseArg_advances.
  - intros lv' [Hargv Hi']. apply IH. simpl. rewrite Hargv.
    intros j a Hj. apply HA. lia.
Qed.

Lemma parseArgs_assigns R `{!Reflexive R} `{!Transitive R} argv0 :
  externals_respect R X ->
  (forall j a, (1 <= j)%nat -> argv0 !! j = Some a -> assignments X R j a) ->
  (forall s g, R g (set_stdout (stdout g ++ [s]) g)) ->
  respects R (parseArgs X argv0).
Proof.
  intros HX HA Hout. unfold parseArgs.
  walk.
  - by apply parseArgs_loop_assigns.
  - by apply parseArgs_finish_respects.
Qed.


Lemma parseArg_verbosity origargc lv g :
  dispatches X lv ->
  (is_verbose_flag (nth (i lv) (argv lv) "") ->
   parseArg X origargc lv g = Done lv (set_verbosity 2 g))
  /\ (is_quiet_flag (nth (i lv) (argv lv) "") ->
      parseArg X origargc lv g = Done lv (set_verbosity 0 g)).
Proof.
  intros Hd. set (cur := nth (i lv) (argv lv) "").
  split; intros [Hc|Hc]; rewrite parseArg_switch; fold cur;
    try exact Hd;
    try (unfold strlen; rewrite Hc; simpl; lia);
    try (right; by rewrite Hc);
    eval_switch cur Hc; reflexivity.
Qed.

Lemma parseArg_gdb origargc lv g :
  dispatches X lv ->
  cstr (nth (i lv) (argv lv) "") = "--gdb" ->
  parseArg X origargc lv g = Done lv (set_gdbFlag (Z.of_nat (i lv)) g).
Proof.
  intros Hd Hc. set (cur := nth (i lv) (argv lv) "") in *.
  rewrite parseArg_switch; fold cur;
    try exact Hd;
    try (unfold strlen; rewrite Hc; simpl; lia);
    try (right; by rewrite Hc).
  eval_switch cur Hc. reflexivity.
Qed.

End WithExternals.

(** X9: [verbosity] follows its flags.  [parseArgs] leaves it alone, or
    leaves it at 2 and then a ["-v"] or ["--verbose"] is among the
    arguments, or at 0 and then a ["-q"] or ["--quiet"] is; and each of
    these flags, when the loop dispatches on it, assigns its value on
    the spot, so that the last one dispatched decides.  The config
    layer is assumed not to assign [verbosity]. *)
Theorem verbosity_follows_its_flags {World} (X : externals World)
    (argv0 : list string) (g : globals World) :
  externals_respect (keeps verbosity) X ->
  let g' := state_of (parseArgs X argv0 g) in
  (verbosity g' = verbosity g
   \/ (verbosity g' = 2%Z /\
       exists a, a ∈ drop 1 argv0 /\ is_verbose_flag a)
   \/ (verbosity g' = 0%Z /\
       exists a, a ∈ drop 1 argv0 /\ is_quiet_flag a))
  /\ (forall origargc lv g1,
        dispatches X lv ->
        (is_verbose_flag (nth (i lv) (argv lv) "") ->
         parseArg X origargc lv g1 = Done lv (set_verbosity 2 g1))
        /\ (is_quiet_flag (nth (i lv) (argv lv) "") ->
            parseArg X origargc lv g1 = Done lv (set_verbosity 0 g1))).
Proof.
  intros HX g'. split; [|intros; by apply parseArg_verbosity].
  set (P2 := exists a, a ∈ drop 1 argv0 /\ is_verbose_flag a).
  set (P0 := exists a, a ∈ drop 1 argv0 /\ is_quiet_flag a).
  apply (parseArgs_assigns X (verbosity_set P2 P0) argv0).
  - eapply externals_respect_weaken; [|exact HX].
    intros g0 g1 E. by left.
  - intros j a Hj Ha.
    assert (a ∈ drop 1 argv0) as Hin.
    { apply list_elem_of_lookup. exists (j - 1)%nat. rewrite lookup_drop.
      by replace (1 + (j - 1))%nat with j by lia. }
    split; intros; try (by left).
    + right; left. split; [done|]. by exists a.
    + right; right. split; [done|]. by exists a.
    + eapply respects_weaken; [|apply defineEnvVar_keeps_visible].
      intros g0 g1 Hv. left. unfold keeps, visible in Hv. congruence.
  - intros s g0. by left.
Qed.

Lemma verbosity_follows_its_flags_witness :
  parseArg (plain_externals false) 3
    (mkLocals 2 false false false ["prog"; "-v"; "--quiet"])
    (set_verbosity 2 fresh_globals)
  = Done (mkLocals 2 false false false ["prog"; "-v"; "--quiet"])
         (set_verbosity 0 (set_verbosity 2 fresh_globals)).
Proof.
  destruct (verbosity_follows_its_flags (plain_externals false)
              ["prog"; "-v"; "--quiet"] fresh_globals
              (plain_externals_respect _ false)) as [_ H].
  apply H; [reflexivity|]. by right.
Defined.

(** X10: [_runInGDB] reports where ["--gdb"] stood.  After [parseArgs],
    [gdbFlag] is what it was, or the position (from 1) of an argument
    ["--gdb"]; dispatching on ["--gdb"] stores the position of that
    argument, so the last one dispatched decides; and [_runInGDB]
    returns [gdbFlag] and changes nothing.  The config layer is
    assumed not to assign [gdbFlag]. *)
Theorem gdbFlag_is_position_of_gdb {World} (X : externals World)
    (argv0 : list string) (g : globals World) :
  externals_respect (keeps gdbFlag) X ->
  let g' := state_of (parseArgs X argv0 g) in
  (gdbFlag g' = gdbFlag g
   \/ exists j, ((1 <= j < length argv0)%nat /\
                 cstr (nth j argv0 "") = "--gdb")
                /\ gdbFlag g' = Z.of_nat j)
  /\ _runInGDB g' = Done (gdbFlag g') g'
  /\ (forall origargc lv g1,
        dispatches X lv ->
        cstr (nth (i lv) (argv lv) "") = "--gdb" ->
        parseArg X origargc lv g1
        = Done lv (set_gdbFlag (Z.of_nat (i lv)) g1)).
Proof.
  intros HX g'. split; [|split; [done|intros; by apply parseArg_gdb]].
  set (P := fun j => (1 <= j < length argv0)%nat /\
                     cstr (nth j argv0 "") = "--gdb").
  apply (parseArgs_assigns X (gdbFlag_set P) argv0).
  - eapply externals_respect_weaken; [|exact HX].
    intros g0 g1 E. by left.
  - intros j a Hj Ha.
    split; intros; try (by left).
    + right. exists j. split; [|done]. split.
      * split; [done|]. by eapply lookup_lt_Some.
      * by rewrite (nth_lookup_Some _ _ _ _ Ha).
    + eapply respects_weaken; [|apply defineEnvVar_keeps_visible].
      intros g0 g1 Hv. left. unfold keeps, visible in Hv. congruence.
  - intros s g0. by left.
Qed.

Lemma gdbFlag_is_position_of_gdb_witness :
  let argv0 := ["prog"; "-b"; "--gdb"] in
  let g' := state_of (parseArgs (plain_externals false) argv0 fresh_globals) in
  gdbFlag g' = gdbFlag fresh_globals
  \/ exists j, ((1 <= j < length argv0)%nat /\
                cstr (nth j argv0 "") = "--gdb")
               /\ gdbFlag g' = Z.of_nat j.
Proof.
  apply (gdbFlag_is_position_of_gdb (plain_externals false)
           ["prog"; "-b"; "--gdb"] fresh_globals).
  apply plain_externals_respect. tc_solve.
Defined.

(** X11: [parseArgs] only ever appends to the argument vector of the
    Chapel main: what was there stays, in place, and every string
    added is an argument from the command line (after the program
    name) or one of the literals ["-h"] and ["--help"].  The config
    layer is assumed to do no more than that itself. *)
Theorem main_arguments_only_grow {World} (X : externals World)
    (argv0 : list string) (g : globals World) :
  let from_command_line a :=
    a ∈ drop 1 argv0 \/ a = "-h" \/ a = "--help" in
  externals_respect (main_arg_grows from_command_line) X ->
  exists more,
    chpl_gen_main_arg (state_of (parseArgs X argv0 g))
    = (chpl_gen_main_arg g ++ more)%list
    /\ Forall from_command_line more.
Proof.
  intros S HX.
  apply (parseArgs_assigns X (main_arg_grows S) argv0 HX).
  - intros j a Hj Ha.
    assert (a ∈ drop 1 argv0) as Hin.
    { apply list_elem_of_lookup. exists (j - 1)%nat. rewrite lookup_drop.
      by replace (1 + (j - 1))%nat with j by lia. }
    split; intros;
      try (exists []; split; [by rewrite app_nil_r|constructor]).
    + exists [f]. split; [done|]. constructor; [|constructor].
      right. tauto.
    + exists [a]. split; [done|]. constructor; [by left|constructor].
    + eapply respects_weaken; [|apply defineEnvVar_keeps_visible].
      intros g0 g1 Hv. exists []. rewrite app_nil_r.
      split; [|constructor]. unfold keeps, visible in Hv. congruence.
  - intros s g0. exists []. split; [by rewrite app_nil_r|constructor].
Qed.

Lemma main_arguments_only_grow_witness :
  exists more,
    chpl_gen_main_arg (state_of (parseArgs (plain_externals true)
                                   ["prog"; "x"; "-h"; "--"; "-b"]
                                   fresh_globals))
    = (["prog"] ++ more)%list.
Proof.
  destruct (main_arguments_only_grow (plain_externals true)
              ["prog"; "x"; "-h"; "--"; "-b"] fresh_globals
              (plain_externals_respect _ true)) as (more & H & _).
  by exists more.
Defined.

End FlagsMore.

(* ===================================================================== *)
(** ** Startup flags: the claims about flags and help *)
(* ===================================================================== *)

Module StartupFlags.
Import CString CStringFacts Arg ArgFacts ArgExtra ArgMore FlagsMore.

Section WithExternals.
Context {World : Type} (X : externals World).
Implicit Types (g : globals World).








(** *** Command lines made of flags without operand *)




End WithExternals.





End StartupFlags.

(* ===================================================================== *)
(** ** The help table *)
(* ===================================================================== *)

Module HelpMore.
Import CString CStringFacts Arg ArgFacts.

Lemma longest_flag_from (l : list flagType) (w0 : nat) :
  exists w,
    foldl (fun longestFlag f =>
             let thisFlag := strlen (flag f) in
             if (longestFlag <? thisFlag)%nat then thisFlag
             else longestFlag) w0 l = w
    /\ (w0 <= w)%nat
    /\ Forall (fun f => (strlen (flag f) <= w)%nat) l
    /\ (w = w0 \/ Exists (fun f => strlen (flag f) = w) l).
Proof.
  revert w0. induction l as [|f l IH]; intros w0.
  - exists w0. repeat split; [lia | constructor | by left].
  - cbn [foldl]. cbv zeta.
    destruct (Nat.ltb_spec w0 (strlen (flag f))) as [Hlt|Hge].
    + destruct (IH (strlen (flag f))) as (w & Hw & H1 & H2 & H3).
      exists w. repeat split; [done | lia | by constructor |].
      right. destruct H3 as [->|H3]; [by left | by right].
    + destruct (IH w0) as (w & Hw & H1 & H2 & H3).
      exists w. repeat split; [done | lia | constructor; [lia | done] |].
      destruct H3 as [H3|H3]; [by left | right; by right].
Qed.

Lemma length_app (s t : string) :
  String.length (s +:+ t) = (String.length s + String.length t)%nat.
Proof. induction s as [|a s IH]; simpl; [done|]. by rewrite IH. Qed.

Lemma length_pad_right (w : nat) (s : string) :
  String.length (pad_right w s) = Nat.max w (String.length s).
Proof.
  unfold pad_right. rewrite length_app.
  assert (forall n, String.length (String.concat "" (repeat " " n)) = n) as ->.
  { induction n as [|n IH]; [done|].
    destruct n as [|n]; [done|].
    change (String.length (" " +:+ "" +:+ String.concat "" (repeat " " (S n)))
            = S (S n)).
    rewrite !length_app, IH. done. }
  lia.
Qed.

(** X12: the help table is laid out in columns.  Whatever the table, the
    width computed by the first loop of [printHelpTable] is the length
    of its longest flag text: no entry is longer, and (for a table
    that is not empty) some entry is exactly that long.  So the
    [%-*s] field of every line has the same width and every
    description starts in the same column. *)
Theorem help_table_columns_line_up (l : list flagType) (f : flagType) :
  f ∈ l -> cstr (flag f) = flag f ->
  (strlen (flag f) <= longest_flag l)%nat
  /\ String.length (pad_right (longest_flag l) (flag f)) = longest_flag l
  /\ Exists (fun f' => strlen (flag f') = longest_flag l) l.
Proof.
  intros Hin Hc.
  destruct (longest_flag_from l 0) as (w & Hw & _ & Hall & Hex).
  change (longest_flag l = w) in Hw. rewrite Hw.
  rewrite Forall_forall in Hall.
  pose proof (Hall f Hin) as Hle.
  split; [done|]. split.
  - rewrite length_pad_right. unfold strlen in Hle. rewrite Hc in Hle. lia.
  - destruct Hex as [H0|Hex]; [|done].
    apply Exists_exists. exists f. split; [done|]. lia.
Qed.

Lemma help_table_columns_line_up_witness :
  (strlen "--gdb" <= longest_flag flagList)%nat
  /\ String.length (pad_right (longest_flag flagList) "--gdb")
     = longest_flag flagList
  /\ Exists (fun f' => strlen (flag f') = longest_flag flagList) flagList.
Proof.
  apply (help_table_columns_line_up flagList
           (mkFlag "--gdb" "run program in gdb" "g")).
  - unfold flagList. set_solver.
  - reflexivity.
Defined.

End HelpMore.

(* ===================================================================== *)
(** ** Facts about [blockedA] *)
(* ===================================================================== *)

Module BlockLUFacts.
Import BlockLU.
Local Open Scope Z_scope.
Local Open Scope list_scope.

Lemma strided_beyond fuel i hi blksize :
  hi < i -> strided fuel i hi blksize = [].
Proof.
  intros H. destruct fuel as [|fuel]; [done|]. simpl.
  destruct (Z.leb_spec i hi); [lia|done].
Qed.

(** The loop indices in closed form. *)
Lemma strided_closed fuel i hi blksize :
  1 <= blksize -> i <= hi + blksize -> hi - i + 1 <= Z.of_nat fuel ->
  strided fuel i hi blksize =
  map (fun k => i + Z.of_nat k * blksize)
      (seq 0 (Z.to_nat ((hi - i + blksize) / blksize))).
Proof.
  intros Hb. revert i. induction fuel as [|fuel IH]; intros i Hi Hfuel.
  - simpl. rewrite Z.div_small by lia. done.
  - simpl. destruct (Z.leb_spec i hi) as [Hle|Hgt].
    + rewrite IH by lia.
      replace (hi - i + blksize) with ((hi - (i + blksize) + blksize)
                                       + 1 * blksize) by lia.
      rewrite Z.div_add by lia.
      rewrite Z2Nat.inj_add; [|apply Z.div_pos; lia|lia].
      rewrite Nat.add_comm. change (Z.to_nat 1) with 1%nat.
      cbn [Nat.add seq map]. f_equal; [lia|].
      rewrite <- seq_shift, map_map. apply map_ext. intros k. lia.
    + rewrite Z.div_small by lia. done.
Qed.

Lemma by_stride_closed (l h blksize : Z) :
  1 <= blksize ->
  by_stride (Span l h) blksize =
  map (fun k => l + Z.of_nat k * blksize)
      (seq 0 (Z.to_nat ((numIndices (Span l h) + blksize - 1) / blksize))).
Proof.
  intros Hb. unfold by_stride, numIndices. simpl.
  destruct (Z.le_gt_cases l h) as [Hle|Hgt].
  - rewrite strided_closed by lia.
    replace (Z.max 0 (h - l + 1) + blksize - 1) with (h - l + blksize) by lia.
    done.
  - rewrite strided_beyond by lia.
    rewrite Z.max_l by lia. rewrite Z.div_small by lia. done.
Qed.

(** The block of one turn, for a domain that starts at or below 1. *)
Lemma block_of_turn (l h blksize i : Z) :
  1 <= blksize -> l <= 1 -> l <= i <= h ->
  fst (blockedA_body (Span l h) blksize i)
  = Span i (Z.min h (i + blksize - 1)).
Proof.
  intros Hb Hl Hi. unfold blockedA_body, numIndices, slice. simpl.
  assert (forall a b, fst (if a + 1 <? b
            then (Span (Z.max l i) (Z.min h a),
                  Rest (Span (Z.max l (a + 1)) (Z.min h b)))
            else (Span (Z.max l i) (Z.min h a), Zero))
          = Span (Z.max l i) (Z.min h a)) as ->.
  { intros a b. by destruct (a + 1 <? b). }
  f_equal; [lia|].
  destruct (Z.ltb_spec (i + blksize - 1) (Z.max 0 (h - l + 1))); lia.
Qed.

Lemma blocks_from (l h blksize : Z) (fuel : nat) (i : Z) :
  1 <= blksize -> l <= 1 -> l <= i <= h + 1 -> h - i + 1 <= Z.of_nat fuel ->
  concat (map (fun j => indices (fst (blockedA_body (Span l h) blksize j)))
              (strided fuel i h blksize))
  = seqZ i (h - i + 1).
Proof.
  intros Hb Hl. revert i. induction fuel as [|fuel IH]; intros i Hi Hfuel.
  - simpl. rewrite seqZ_nil by lia. done.
  - simpl. destruct (Z.leb_spec i h) as [Hle|Hgt].
    2:{ simpl. rewrite seqZ_nil by lia. done. }
    cbn [map concat]. rewrite block_of_turn by lia.
    unfold indices at 1, numIndices. simpl.
    destruct (Z.le_gt_cases (i + blksize) h) as [Hmore|Hlast].
    + rewrite IH by lia.
      rewrite Z.min_r by lia. rewrite Z.max_r by lia.
      replace (i + blksize - 1 - i + 1) with blksize by lia.
      replace (h - i + 1) with (blksize + (h - (i + blksize) + 1)) by lia.
      rewrite (seqZ_app i blksize) by lia. done.
    + rewrite strided_beyond by lia. simpl. rewrite app_nil_r.
      rewrite Z.min_l by lia. rewrite Z.max_r by lia. done.
Qed.

(** X13: the blocks of [blockedA] tile the domain.  For a domain that
    starts at or below 1 (the program's is [1..n]) and a positive block
    size, the first components of the yielded pairs, one after the
    other, are exactly the indices of the domain in order: no index is
    left out, none comes twice.  The iterator uses the number of
    indices as the last index, which is where the bound on the start
    comes from. *)
Theorem blockedA_blocks_tile_the_domain (D : domain1) (blksize : Z) :
  1 <= blksize -> low D <= 1 ->
  concat (map (fun p => indices (fst p)) (blockedA D blksize)) = indices D.
Proof.
  intros Hb Hl. destruct D as [l h]. simpl in Hl.
  unfold blockedA, by_stride. rewrite map_map.
  unfold indices at 2, numIndices. simpl.
  destruct (Z.le_gt_cases l h) as [Hle|Hgt].
  - rewrite blocks_from by lia. f_equal. lia.
  - rewrite strided_beyond by lia. simpl. rewrite seqZ_nil by lia. done.
Qed.

Lemma blockedA_blocks_tile_the_domain_witness :
  concat (map (fun p => indices (fst p)) (blockedA (Span 1 10) 5))
  = indices (Span 1 10).
Proof.
  apply (blockedA_blocks_tile_the_domain (Span 1 10) 5); simpl; lia.
Defined.

(** X14: how many blocks, and how large.  For the domain [1..n] and a
    positive block size, [blockedA] yields [ceil(n / blksize)] pairs;
    every block has at least one index and at most [blksize], and every
    block but the last has exactly [blksize]. *)
Theorem blockedA_block_sizes (n blksize : Z) :
  1 <= blksize -> 0 <= n ->
  let blocks := map fst (blockedA (Span 1 n) blksize) in
  Z.of_nat (length blocks) = (n + blksize - 1) / blksize
  /\ Forall (fun B => 1 <= numIndices B <= blksize) blocks
  /\ forall (k : nat) (B : domain1),
       blocks !! k = Some B -> (S k < length blocks)%nat ->
       numIndices B = blksize.
Proof.
  intros Hb Hn blocks.
  assert (numIndices (Span 1 n) = n) as Hnum
    by (unfold numIndices; simpl; lia).
  assert (0 <= (n + blksize - 1) / blksize) as Hq by (apply Z.div_pos; lia).
  assert (blocks =
          map (fun k => Span (1 + Z.of_nat k * blksize)
                             (Z.min n (Z.of_nat k * blksize + blksize)))
              (seq 0 (Z.to_nat ((n + blksize - 1) / blksize)))) as Hblocks.
  { unfold blocks, blockedA. rewrite by_stride_closed by done.
    rewrite Hnum, !map_map. apply map_ext_in. intros k Hk.
    apply in_seq in Hk.
    assert (Z.of_nat k < (n + blksize - 1) / blksize) as Hlt by lia.
    assert (Z.of_nat k * blksize < n).
    { apply Z.lt_le_pred in Hlt.
      assert (Z.of_nat k * blksize <= Z.pred ((n + blksize - 1) / blksize) * blksize)
        by (apply Z.mul_le_mono_nonneg_r; lia).
      pose proof (Z.mul_div_le (n + blksize - 1) blksize ltac:(lia)). nia. }
    rewrite block_of_turn by lia. f_equal. lia. }
  rewrite Hblocks. split; [|split].
  - rewrite length_map, length_seq. lia.
  - apply Forall_forall. intros B HB.
    apply list_elem_of_In, in_map_iff in HB as (k & <- & Hk).
    apply in_seq in Hk. unfold numIndices. simpl.
    assert (Z.of_nat k < (n + blksize - 1) / blksize) as Hlt by lia.
    assert (Z.of_nat k * blksize < n).
    { apply Z.lt_le_pred in Hlt.
      assert (Z.of_nat k * blksize <= Z.pred ((n + blksize - 1) / blksize) * blksize)
        by (apply Z.mul_le_mono_nonneg_r; lia).
      pose proof (Z.mul_div_le (n + blksize - 1) blksize ltac:(lia)). nia. }
    lia.
  - intros k B HB Hk. rewrite length_map, length_seq in Hk.
    rewrite list_lookup_fmap in HB.
    destruct (seq 0 _ !! k) as [k'|] eqn:Hk'; [|done].
    apply lookup_seq in Hk' as [-> _]. simpl in HB. injection HB as <-.
    unfold numIndices. simpl.
    assert (Z.of_nat (S k) < (n + blksize - 1) / blksize) as Hlt by lia.
    assert (Z.of_nat (S k) * blksize < n).
    { apply Z.lt_le_pred in Hlt.
      assert (Z.of_nat (S k) * blksize <= Z.pred ((n + blksize - 1) / blksize) * blksize)
        by (apply Z.mul_le_mono_nonneg_r; lia).
      pose proof (Z.mul_div_le (n + blksize - 1) blksize ltac:(lia)). nia. }
    lia.
Qed.

Lemma blockedA_block_sizes_witness :
  let blocks := map fst (blockedA (Span 1 10) 5) in
  Z.of_nat (length blocks) = (10 + 5 - 1) / 5
  /\ Forall (fun B => 1 <= numIndices B <= 5) blocks
  /\ forall (k : nat) (B : domain1),
       blocks !! k = Some B -> (S k < length blocks)%nat ->
       numIndices B = 5.
Proof.
  apply (blockedA_block_sizes 10 5); lia.
Defined.

(** X15: the second component.  For the domain [1..n] and a positive
    block size, a yielded pair [(Block, Unfact)] has as [Unfact] the
    slice from just after the block to [n] when that slice has two
    indices or more, and the literal [[0]] otherwise: when the block is
    the last one, and also when exactly one index follows it. *)
Theorem blockedA_unfactored_part (n blksize : Z) (B : domain1)
    (U : unfactored) :
  1 <= blksize ->
  (B, U) ∈ blockedA (Span 1 n) blksize ->
  match U with
  | Rest R => R = Span (high B + 1) n /\ high B + 1 < n
  | Zero => n <= high B + 1
  end.
Proof.
  intros Hb Hin. unfold blockedA in Hin.
  apply list_elem_of_In, in_map_iff in Hin as (i & Hbody & Hi).
  assert (1 <= i <= n) as Hrange.
  { unfold by_stride in Hi. simpl in Hi.
    destruct (Z.le_gt_cases 1 n) as [Hle|Hgt].
    - rewrite strided_closed in Hi by (unfold numIndices; simpl; lia).
      apply in_map_iff in Hi as (k & <- & Hk). apply in_seq in Hk.
      assert (Z.of_nat k < (n - 1 + blksize) / blksize) as Hlt by lia.
      apply Z.lt_le_pred in Hlt.
      assert (Z.of_nat k * blksize <= Z.pred ((n - 1 + blksize) / blksize) * blksize)
        by (apply Z.mul_le_mono_nonneg_r; lia).
      pose proof (Z.mul_div_le (n - 1 + blksize) blksize ltac:(lia)). nia.
    - rewrite strided_beyond in Hi by lia. done. }
  unfold blockedA_body, numIndices, slice in Hbody. simpl in Hbody.
  rewrite (Z.max_r 0 (n - 1 + 1)) in Hbody by lia.
  replace (n - 1 + 1) with n in Hbody by lia.
  destruct (Z.ltb_spec (i + blksize - 1) n) as [Hlt|Hge].
  - destruct (Z.ltb_spec (i + blksize - 1 + 1) n) as [Hlt'|Hge'];
      injection Hbody as <- <-; simpl.
    + rewrite (Z.min_r n (i + blksize - 1)) by lia.
      split; [|lia]. f_equal; lia.
    + lia.
  - destruct (Z.ltb_spec (n + 1) n) as [Hlt'|Hge']; [lia|].
    injection Hbody as <- <-. simpl. lia.
Qed.

Lemma blockedA_unfactored_part_witness :
  Span 6 10 = Span (high (Span 1 5) + 1) 10 /\ high (Span 1 5) + 1 < 10.
Proof.
  apply (blockedA_unfactored_part 10 5 (Span 1 5) (Rest (Span 6 10)));
    [lia|]. vm_compute. set_solver.
Defined.

(** X16: a single trailing index is passed over.  When [n] leaves the
    remainder 1 on division by the block size and there is more than
    one block, the block before the last is yielded with [[0]] as its
    unfactored part, exactly like the last block, although index [n]
    still follows it. *)
Theorem blockedA_single_trailing_index (n blksize : Z) :
  2 <= blksize -> blksize < n -> n mod blksize = 1 ->
  exists earlier,
    blockedA (Span 1 n) blksize
    = earlier ++ [(Span (n - blksize) (n - 1), Zero); (Span n n, Zero)].
Proof.
  intros Hb Hn Hmod. unfold blockedA.
  rewrite by_stride_closed by lia.
  assert (numIndices (Span 1 n) = n) as -> by (unfold numIndices; simpl; lia).
  pose proof (Z.div_mod n blksize ltac:(lia)) as Hdiv. rewrite Hmod in Hdiv.
  set (q := n / blksize) in *.
  assert (1 <= q) as Hq by nia.
  replace ((n + blksize - 1) / blksize) with (q + 1).
  2:{ replace (n + blksize - 1) with ((q + 1) * blksize) by lia.
      rewrite Z.div_mul by lia. done. }
  replace (Z.to_nat (q + 1)) with (Z.to_nat (q - 1) + 2)%nat by lia.
  rewrite seq_app, !map_app. eexists. f_equal.
  cbn [seq map Nat.add].
  rewrite Nat2Z.inj_succ, Z2Nat.id by lia.
  replace (1 + (q - 1) * blksize) with (n - blksize) by lia.
  replace (1 + Z.succ (q - 1) * blksize) with n by lia.
  unfold blockedA_body, numIndices, slice. simpl.
  rewrite (Z.max_r 0 (n - 1 + 1)) by lia.
  replace (n - 1 + 1) with n by lia.
  destruct (Z.ltb_spec (n - blksize + blksize - 1) n) as [_|?]; [|lia].
  destruct (Z.ltb_spec (n - blksize + blksize - 1 + 1) n) as [?|_]; [lia|].
  destruct (Z.ltb_spec (n + blksize - 1) n) as [?|_]; [lia|].
  destruct (Z.ltb_spec (n + 1) n) as [?|_]; [lia|].
  repeat f_equal; lia.
Qed.

Lemma blockedA_single_trailing_index_witness :
  exists earlier,
    blockedA (Span 1 11) 5
    = earlier ++ [(Span (11 - 5) (11 - 1), Zero); (Span 11 11, Zero)].
Proof.
  apply (blockedA_single_trailing_index 11 5); [lia|lia|reflexivity].
Defined.

End BlockLUFacts.

(* ===================================================================== *)
(** ** Facts about paratest.chapcs *)
(* ===================================================================== *)

Module ParatestFacts.
Import Paratest.
Local Open Scope list_scope.

Lemma add_to_assoc a b c : add_to (add_to a b) c = add_to a (add_to b c).
Proof.
  unfold add_to. simpl. f_equal; [lia|]. by rewrite (assoc_L (∪)).
Qed.

Lemma add_to_comm a b : add_to a b = add_to b a.
Proof.
  unfold add_to. f_equal; [lia|]. by rewrite (comm_L (∪)).
Qed.

Section WithCluster.
Variable upper : string -> string.
Variable int : string -> option Z.
Variable expand_hostnames : string -> option (list string).

Local Abbreviation exclusive_line :=
  (exclusive_line upper int expand_hostnames).
Local Abbreviation exclusive_lines :=
  (exclusive_lines upper int expand_hostnames).
Local Abbreviation get_exclusive_nodes :=
  (get_exclusive_nodes upper int expand_hostnames).

(** What a line does not depend on what has been counted so far:
    whether it raises and what, and what it adds. *)
Lemma exclusive_line_from acc line :
  exclusive_line acc line =
  match exclusive_line (0%Z, ∅) line with
  | Returns c => Returns (add_to acc c)
  | Raises e => Raises e
  end.
Proof.
  unfold Paratest.exclusive_line, add_to.
  destruct acc as [num hosts].
  destruct (split ";" line) as [|oversub [|num_nodes [|nodelist
             [|req_nodes [|? ?]]]]]; try done.
  destruct (negb (String.eqb (upper oversub) "YES")); simpl.
  - destruct (negb (String.eqb _ "")).
    + destruct (expand_hostnames _) as [names|]; simpl; [|done].
      by rewrite Z.add_0_r, (left_id_L ∅ (∪)).
    + destruct (int num_nodes) as [k|]; simpl; [|done].
      by rewrite Z.add_0_l, (right_id_L ∅ (∪)).
  - by rewrite Z.add_0_r, (right_id_L ∅ (∪)).
Qed.

Lemma exclusive_lines_from lines acc :
  exclusive_lines lines acc =
  match exclusive_lines lines (0%Z, ∅) with
  | Returns r => Returns (add_to acc r)
  | Raises e => Raises e
  end.
Proof.
  revert acc. induction lines as [|line lines IH]; intros acc; simpl.
  - unfold add_to. destruct acc as [num hosts]. simpl.
    by rewrite Z.add_0_r, (right_id_L ∅ (∪)).
  - rewrite (exclusive_line_from acc).
    destruct (exclusive_line (0%Z, ∅) line) as [c|e]; simpl; [|done].
    rewrite (IH (add_to acc c)), (IH c).
    destruct (exclusive_lines lines (0%Z, ∅)) as [r|e]; simpl; [|done].
    by rewrite add_to_assoc.
Qed.

Lemma exclusive_lines_cons line lines :
  exclusive_lines (line :: lines) (0%Z, ∅) =
  match exclusive_line (0%Z, ∅) line with
  | Returns c =>
      match exclusive_lines lines (0%Z, ∅) with
      | Returns r => Returns (add_to c r)
      | Raises e => Raises e
      end
  | Raises e => Raises e
  end.
Proof.
  simpl. destruct (exclusive_line _ line) as [c|e]; [|done].
  by rewrite exclusive_lines_from.
Qed.

Lemma exclusive_lines_app l1 l2 acc :
  exclusive_lines (l1 ++ l2) acc =
  match exclusive_lines l1 acc with
  | Returns a => exclusive_lines l2 a
  | Raises e => Raises e
  end.
Proof.
  revert acc. induction l1 as [|line l1 IH]; intros acc; simpl; [done|].
  destruct (exclusive_line acc line) as [a|e]; [apply IH|done].
Qed.

(** When the loop returns for one order of the lines, it returns the
    same for any other. *)
Lemma exclusive_lines_Permutation lines lines' r :
  lines ≡ₚ lines' ->
  exclusive_lines lines (0%Z, ∅) = Returns r ->
  exclusive_lines lines' (0%Z, ∅) = Returns r.
Proof.
  intros Hp. revert r.
  induction Hp as [|x l l' _ IH|x y l|l l' l'' _ IH1 _ IH2]; intros r.
  - done.
  - rewrite !exclusive_lines_cons.
    destruct (exclusive_line (0%Z, ∅) x) as [c|e]; [|done].
    destruct (exclusive_lines l (0%Z, ∅)) as [r0|e] eqn:E; [|done].
    by rewrite (IH r0 eq_refl).
  - rewrite !exclusive_lines_cons.
    destruct (exclusive_line (0%Z, ∅) x) as [cx|ex],
      (exclusive_line (0%Z, ∅) y) as [cy|ey],
      (exclusive_lines l (0%Z, ∅)) as [r0|e0]; try done.
    intros [= <-]. f_equal.
    by rewrite <- !add_to_assoc, (add_to_comm cy cx).
  - intros H. by apply IH2, IH1.
Qed.

(** When it raises, the exception is that of the first line that
    raises. *)
Lemma exclusive_lines_raises lines e :
  exclusive_lines lines (0%Z, ∅) = Raises e ->
  exists before line after,
    lines = before ++ line :: after
    /\ Forall (fun l => exists c, exclusive_line (0%Z, ∅) l = Returns c)
              before
    /\ exclusive_line (0%Z, ∅) line = Raises e.
Proof.
  induction lines as [|line lines IH]; [done|].
  rewrite exclusive_lines_cons.
  destruct (exclusive_line (0%Z, ∅) line) as [c|e0] eqn:El.
  - destruct (exclusive_lines lines (0%Z, ∅)) as [r|e1]; [done|].
    intros [= ->]. destruct (IH eq_refl) as (b & l & a & -> & Hb & Hl).
    exists (line :: b), l, a. split; [done|]. split; [|done].
    constructor; [by exists c|done].
  - intros [= ->]. exists [], line, lines. by repeat split.
Qed.

Lemma get_exclusive_nodes_returns squeue_out sinfo_out r :
  get_exclusive_nodes squeue_out sinfo_out = Returns r <->
  exists a, exclusive_lines (squeue_out ++ sinfo_out) (0%Z, ∅) = Returns a
            /\ r = ((a.1 + Z.of_nat (size a.2))%Z, a.2).
Proof.
  unfold Paratest.get_exclusive_nodes.
  destruct (exclusive_lines _ _) as [[k hosts]|e].
  - split; [intros [= <-]; by eexists|intros (a & [= <-] & ->); done].
  - split; [done|intros (a & [=] & _)].
Qed.

Lemma get_exclusive_nodes_raises squeue_out sinfo_out e :
  get_exclusive_nodes squeue_out sinfo_out = Raises e <->
  exclusive_lines (squeue_out ++ sinfo_out) (0%Z, ∅) = Raises e.
Proof.
  unfold Paratest.get_exclusive_nodes.
  destruct (exclusive_lines _ _) as [[k hosts]|e0]; split; congruence.
Qed.

End WithCluster.

(** X17: the order of the queue does not matter to what
    [get_exclusive_nodes] returns.  If it returns for one order of the
    [squeue] and [sinfo] lines, it returns the same count and the same
    host names for every other order.  If it raises for one order, it
    raises for every other order too; the exception is that of the
    first line, in the order given, that cannot be processed, so it can
    be a different one. *)
Theorem get_exclusive_nodes_ignores_order
    (upper : string -> string) (int : string -> option Z)
    (expand_hostnames : string -> option (list string))
    (squeue_out sinfo_out squeue_out' sinfo_out' : list string) :
  squeue_out ++ sinfo_out ≡ₚ squeue_out' ++ sinfo_out' ->
  (forall r,
     get_exclusive_nodes upper int expand_hostnames squeue_out sinfo_out
       = Returns r ->
     get_exclusive_nodes upper int expand_hostnames squeue_out' sinfo_out'
       = Returns r)
  /\ (forall e,
        get_exclusive_nodes upper int expand_hostnames squeue_out sinfo_out
          = Raises e ->
        exists e' before line after,
          get_exclusive_nodes upper int expand_hostnames
            squeue_out' sinfo_out' = Raises e'
          /\ squeue_out' ++ sinfo_out' = before ++ line :: after
          /\ Forall (fun l => exists c,
                       exclusive_line upper int expand_hostnames (0%Z, ∅) l
                       = Returns c) before
          /\ exclusive_line upper int expand_hostnames (0%Z, ∅) line
             = Raises e').
Proof.
  intros Hp. split.
  - intros r Hr.
    apply get_exclusive_nodes_returns in Hr as (a & Ha & ->).
    apply get_exclusive_nodes_returns. exists a. split; [|done].
    by apply (exclusive_lines_Permutation _ _ _ _ _ _ Hp).
  - intros e He. apply get_exclusive_nodes_raises in He.
    destruct (exclusive_lines upper int expand_hostnames
                (squeue_out' ++ sinfo_out') (0%Z, ∅)) as [a|e'] eqn:E'.
    + symmetry in Hp.
      rewrite (exclusive_lines_Permutation _ _ _ _ _ _ Hp E') in He. done.
    + destruct (exclusive_lines_raises _ _ _ _ _ E')
        as (b & l & af & Hl & Hb & Hr).
      exists e', b, l, af. split; [|done].
      by apply get_exclusive_nodes_raises.
Qed.

Lemma get_exclusive_nodes_ignores_order_witness :
  get_exclusive_nodes (fun s => s) (fun _ => Some 2%Z)
    (fun s => Some [s]) ["NO;1;n7;n7"] ["YES;1;n1;"; "NO;2;;"]
  = Returns (3%Z, {["n7"]}).
Proof.
  destruct (get_exclusive_nodes_ignores_order (fun s => s)
              (fun _ => Some 2%Z) (fun s => Some [s])
              ["NO;2;;"; "YES;1;n1;"] ["NO;1;n7;n7"]
              ["NO;1;n7;n7"] ["YES;1;n1;"; "NO;2;;"]) as [H _].
  - exact (Permutation_rev ["NO;2;;"; "YES;1;n1;"; "NO;1;n7;n7"]).
  - apply H. vm_compute. reflexivity.
Defined.

(** X18: a host is counted once.  A line that names its nodes (in
    NODELIST or, failing that, in REQ_NODES) can be listed twice, as
    when a draining node is also allocated to an exclusive job, without
    changing what [get_exclusive_nodes] returns; its NODES field is
    never read. *)
Theorem get_exclusive_nodes_counts_hosts_once
    (upper : string -> string) (int : string -> option Z)
    (expand_hostnames : string -> option (list string))
    (line oversub num_nodes nodelist req_nodes : string)
    (squeue_out sinfo_out : list string) :
  split ";" line = [oversub; num_nodes; nodelist; req_nodes] ->
  nodelist <> "" \/ req_nodes <> "" ->
  get_exclusive_nodes upper int expand_hostnames
    (line :: squeue_out) (sinfo_out ++ [line])
  = get_exclusive_nodes upper int expand_hostnames
    (line :: squeue_out) sinfo_out.
Proof.
  intros Hsplit Hnamed.
  unfold get_exclusive_nodes.
  rewrite (assoc_L (++) (line :: squeue_out) sinfo_out [line]).
  rewrite exclusive_lines_app.
  change ((line :: squeue_out) ++ sinfo_out)
    with (line :: (squeue_out ++ sinfo_out)).
  rewrite exclusive_lines_cons.
  assert (exists o, exclusive_line upper int expand_hostnames (0%Z, ∅) line
                    = match o with
                      | inl hosts => Returns (0%Z, hosts)
                      | inr e => Raises e
                      end) as [o Ho].
  { unfold exclusive_line. rewrite Hsplit.
    destruct (negb (String.eqb (upper oversub) "YES"));
      [|by exists (inl ∅)].
    assert (negb (String.eqb (if negb (String.eqb nodelist "")
                              then nodelist else req_nodes) "") = true) as ->.
    { destruct (String.eqb_spec nodelist ""); simpl.
      - destruct (String.eqb_spec req_nodes ""); [|done].
        by destruct Hnamed.
      - by destruct (String.eqb_spec nodelist ""). }
    destruct (expand_hostnames _) as [names|].
    - by exists (inl (∅ ∪ list_to_set names)).
    - by eexists (inr _). }
  rewrite Ho. destruct o as [hosts|e]; [|done].
  destruct (exclusive_lines _ _ _ _ (0%Z, ∅)) as [[k others]|e]; [|done].
  simpl. rewrite exclusive_line_from, Ho. unfold add_to. simpl.
  rewrite Z.add_0_l, Z.add_0_r.
  by rewrite (comm_L (∪) (hosts ∪ others) hosts), (assoc_L (∪)),
    (idemp_L (∪)).
Qed.

Lemma get_exclusive_nodes_counts_hosts_once_witness :
  get_exclusive_nodes (fun s => s) (fun _ => Some 2%Z) (fun s => Some [s])
    ["NO;1;n7;n7"; "NO;2;;"] ([] ++ ["NO;1;n7;n7"])
  = get_exclusive_nodes (fun s => s) (fun _ => Some 2%Z) (fun s => Some [s])
    ["NO;1;n7;n7"; "NO;2;;"] [].
Proof.
  apply (get_exclusive_nodes_counts_hosts_once (fun s => s)
           (fun _ => Some 2%Z) (fun s => Some [s])
           "NO;1;n7;n7" "NO" "1" "n7" "n7" ["NO;2;;"] []).
  - reflexivity.
  - left. discriminate.
Defined.

Lemma get_num_oversub_jobs_zero (upper : string -> string)
    (squeue_out : list string) :
  get_num_oversub_jobs upper squeue_out = 0%nat
  <-> Forall (fun s => upper s <> "YES") squeue_out.
Proof.
  unfold get_num_oversub_jobs.
  induction squeue_out as [|s l IH]; simpl.
  - split; [constructor|done].
  - rewrite filter_cons. destruct (decide (upper s = "YES")) as [He|Hne].
    + split; [done|]. intros H. by inversion H.
    + rewrite IH. split; [by constructor|]. intros H. by inversion H.
Qed.

(** X19: the node parallelism that is chosen.  [get_good_nodepara] is 2,
    3 or 4; it is 4 only for [comm=none] with no job in the queue whose
    OVER_SUBSCRIBE field reads YES (in any letter case), and 2 only for
    another [comm] with such a job in the queue. *)
Theorem get_good_nodepara_range (upper : string -> string)
    (comm : string) (squeue_out : list string) :
  let nodepara := get_good_nodepara upper comm squeue_out in
  (2 <= nodepara <= 4)%Z
  /\ (nodepara = 4%Z
      <-> comm = "none" /\ Forall (fun s => upper s <> "YES") squeue_out)
  /\ (nodepara = 2%Z
      <-> comm <> "none" /\ Exists (fun s => upper s = "YES") squeue_out).
Proof.
  unfold get_good_nodepara.
  pose proof (get_num_oversub_jobs_zero upper squeue_out) as Hz.
  assert (Exists (fun s => upper s = "YES") squeue_out
          <-> ~ Forall (fun s => upper s <> "YES") squeue_out) as Hex.
  { clear Hz. induction squeue_out as [|s l IH].
    - split; [by inversion 1|]. intros H. by destruct H.
    - split.
      + intros H HF. inversion HF; subst. inversion H; subst; [done|].
        by apply IH.
      + intros H. destruct (decide (upper s = "YES")) as [He|Hne];
          [by left|]. right. apply IH. intros HF. apply H. by constructor. }
  destruct (String.eqb_spec comm "none") as [Hc|Hc];
    destruct (Nat.eqb_spec (get_num_oversub_jobs upper squeue_out) 0)
      as [Hn|Hn]; simpl; (split; [lia|]); rewrite Hex, <- Hz;
    intuition (first [lia | congruence]).
Qed.

(** X20: the nightly window.  For a valid time of day,
    [running_during_nightly] answers yes exactly from 01:30:00 to
    04:30:00, both ends included, to the microsecond: 04:30:00.000000
    is inside, 04:30:00.000001 is outside. *)
Theorem running_during_nightly_window (now : time) :
  valid_time now ->
  running_during_nightly now = true
  <-> (since_midnight (mkTime 1 30 0 0) <= since_midnight now
       <= since_midnight (mkTime 4 30 0 0))%Z.
Proof.
  intros (Hh & Hm & Hs & Hu).
  unfold running_during_nightly, time_le, since_midnight. simpl.
  rewrite andb_true_iff.
  repeat match goal with
         | |- context [(?a <? ?b)%Z] => destruct (Z.ltb_spec a b)
         | |- context [(?a <=? ?b)%Z] => destruct (Z.leb_spec a b)
         end;
    (split; [intros [? ?]; first [discriminate | lia]
            | intros [? ?]; first [lia | done]]).
Qed.

Lemma running_during_nightly_window_witness :
  running_during_nightly (mkTime 4 30 0 1) = true
  <-> (since_midnight (mkTime 1 30 0 0) <= since_midnight (mkTime 4 30 0 1)
       <= since_midnight (mkTime 4 30 0 0))%Z.
Proof.
  apply (running_during_nightly_window (mkTime 4 30 0 1)).
  unfold valid_time. simpl. lia.
Defined.

End ParatestFacts.
